(** * Parser combinators over a row/column tracking stream

    A shallow embedding of [parser_combinators.hpp]: the character
    predicates, the [pstream] cursor, the primitive recognisers
    [accept]/[expect], the constant parsers, the reducer combinators
    [any]/[all] and the combinators [||], [&&], [many], [discard];
    followed by the properties of the written description that concern
    them. *)

From Stdlib Require Import ZArith List ListSet String Ascii Bool Lia.
Import ListNotations.

Local Open Scope string_scope.
Local Open Scope list_scope.
Local Open Scope Z_scope.

(** ** Symbols and the C character classes *)

(** [EOF] of <cstdio>: the one value of [int] the stream hands out that is
    not a character. *)
Definition EOF : Z := -1.

(** The <cctype> tests in the "C" locale (the program never calls
    [setlocale]).  Their argument is [EOF] or the value of an
    [unsigned char]; all of them answer no on [EOF]. *)
Module CType.

Definition between (lo hi c : Z) : bool := (lo <=? c) && (c <=? hi).

Definition isdigit (c : Z) : bool := between 48 57 c.
Definition isupper (c : Z) : bool := between 65 90 c.
Definition islower (c : Z) : bool := between 97 122 c.
Definition isalpha (c : Z) : bool := isupper c || islower c.
Definition isalnum (c : Z) : bool := isalpha c || isdigit c.
Definition isspace (c : Z) : bool := between 9 13 c || (c =? 32).
Definition isprint (c : Z) : bool := between 32 126 c.

End CType.

(** [traits_type::to_int_type]: a character of the buffer as the stream
    reports it, through [unsigned char]. *)
Definition to_int_type (c : ascii) : Z := Z.of_N (N_of_ascii c).

(** Conversion [int -> char]: the low eight bits. *)
Definition char_of_int (z : Z) : ascii := ascii_of_N (Z.to_N (z mod 256)).

(** Conversion [char -> int].  Plain [char] is signed here, as on the
    targets where the library's own [is_eof(EOF)] stores [EOF] in [k]. *)
Definition int_of_char (c : ascii) : Z :=
  let n := to_int_type c in if n <? 128 then n else n - 256.

(** ** Character predicates *)

(** A predicate object: its [name] member and its [operator()]. *)
Record predicate : Type := mk_predicate {
  name : string;
  test : Z -> bool
}.

Definition is_any : predicate :=
  mk_predicate "anything" (fun c => negb (c =? EOF)).
Definition is_space : predicate := mk_predicate "space" CType.isspace.
Definition is_digit : predicate := mk_predicate "digit" CType.isdigit.
Definition is_upper : predicate := mk_predicate "uppercase" CType.isupper.
Definition is_lower : predicate := mk_predicate "lowercase" CType.islower.
Definition is_alpha : predicate := mk_predicate "alphabetic" CType.isalpha.
Definition is_alnum : predicate := mk_predicate "alphanumeric" CType.isalnum.
Definition is_print : predicate := mk_predicate "printable" CType.isprint.

(** [is_char(c)]: [k(c)], [name("'" + string(1, c) + "'")]. *)
Definition is_char (c : ascii) : predicate :=
  let k := int_of_char c in
  mk_predicate ("'" ++ String c "" ++ "'")%string (fun x => k =? x).

(** [is_char const is_eof(EOF)]: the [int] argument is narrowed to [char]. *)
Definition is_eof : predicate := is_char (char_of_int EOF).

(** [is_either], built by [operator||] on predicates. *)
Definition is_either (p1 p2 : predicate) : predicate :=
  mk_predicate ("(" ++ name p1 ++ " or " ++ name p2 ++ ")")%string
               (fun c => test p1 c || test p2 c).

(** [is_not], built by [operator~]. *)
Definition is_not (p1 : predicate) : predicate :=
  mk_predicate ("~" ++ name p1)%string (fun c => negb (test p1 c)).

(** ** The stream with location *)

(** [int] arithmetic.  Signed overflow is undefined in C++; the model wraps
    as the two's complement machine does, and every statement about the
    value of a counter assumes it stays below [INT_MAX]. *)
Definition INT_MAX : Z := 2147483647.
Definition INT_MIN : Z := -2147483648.
Definition int_wrap (z : Z) : Z := (z - INT_MIN) mod 4294967296 + INT_MIN.
Definition incr (z : Z) : Z := int_wrap (z + 1).

(** The [streambuf] get area: the characters not yet passed by the get
    pointer.  Each operation returns its [int] result and the buffer after
    it. *)
Definition streambuf := list ascii.

Definition sgetc (b : streambuf) : Z :=
  match b with
  | [] => EOF
  | c :: _ => to_int_type c
  end.

Definition sbumpc (b : streambuf) : Z * streambuf :=
  match b with
  | [] => (EOF, [])
  | c :: r => (to_int_type c, r)
  end.

Definition snextc (b : streambuf) : Z * streambuf :=
  match b with
  | [] => (EOF, [])
  | _ :: r => (sgetc r, r)
  end.

Record parse_error : Type := mk_parse_error {
  e_what : string;
  e_row : Z;
  e_col : Z;
  e_exp : string;
  e_sym : Z
}.

Record pstream : Type := mk_pstream {
  in_ : streambuf;
  count : Z;
  row : Z;
  col : Z;
  sym : Z
}.

(** The constructor [pstream(istream &f)]. *)
Definition pstream_of (f : streambuf) : pstream :=
  let '(c, b) := sbumpc f in
  mk_pstream b 0 1 1 c.

(** [pstream::error]: the exception it throws. *)
Definition error (s : pstream) (err exp : string) : parse_error :=
  mk_parse_error err (row s) (col s) exp (sym s).

(** [pstream::next]. *)
Definition next (s : pstream) : pstream :=
  let sym' := sgetc (in_ s) in
  let in' := snd (snextc (in_ s)) in
  let count' := incr (count s) in
  if sym' =? 10 then mk_pstream in' count' (incr (row s)) 0 sym'
  else if CType.isprint sym' then mk_pstream in' count' (row s) (incr (col s)) sym'
  else mk_pstream in' count' (row s) (col s) sym'.

Definition get_count (s : pstream) : Z := count s.
Definition get_col (s : pstream) : Z := col s.
Definition get_row (s : pstream) : Z := row s.
Definition get_sym (s : pstream) : Z := sym s.

(** A file as the list of its characters. *)
Definition file (s : string) : streambuf := list_ascii_of_string s.

(** ** Parsers *)

(** What a call can do: return a value and leave the stream in a state,
    throw a [parse_error], or still be running when the fuel that bounds
    the [while] loops of the model is spent. *)
Inductive outcome (A : Type) : Type :=
| Returned (a : A) (s : pstream)
| Thrown (e : parse_error)
| Unfinished.
Arguments Returned {A} a s.
Arguments Thrown {A} e.
Arguments Unfinished {A}.

(** A parser object's [operator() (pstream &in, R *result)]: the stream is
    passed in and out, the slot behind [result] likewise, [None] being the
    null pointer. *)
Definition parser (R : Type) : Type :=
  nat -> pstream -> option R -> outcome (bool * option R).

Abbreviation Done b s r := (Returned (b, r) s).

(** [result->push_back(sym)]: the [int] is narrowed to [char]. *)
Definition push_back (r : string) (c : Z) : string :=
  (r ++ String (char_of_int c) "")%string.

(** [recogniser_accept]. *)
Definition accept (p : predicate) : parser string :=
  fun _ s result =>
    let c := get_sym s in
    if negb (test p c) then Done false s result
    else
      let result' := option_map (fun r => push_back r c) result in
      Done true (next s) result'.

(** [recogniser_expect]. *)
Definition expect (p : predicate) : parser string :=
  fun _ s result =>
    let c := get_sym s in
    if negb (test p c) then Thrown (error s "expected" (name p))
    else
      let result' := option_map (fun r => push_back r c) result in
      Done true (next s) result'.

(** [parser_succ] and [parser_fail]. *)
Definition succ {R : Type} : parser R := fun _ s result => Done true s result.
Definition fail {R : Type} : parser R := fun _ s result => Done false s result.

(** [combinator_choice]: [p1(in, result) || p2(in, result)]. *)
Definition choice {R : Type} (p1 p2 : parser R) : parser R :=
  fun fuel s result =>
    match p1 fuel s result with
    | Done true s1 r1 => Done true s1 r1
    | Done false s1 r1 => p2 fuel s1 r1
    | Thrown e => Thrown e
    | Unfinished => Unfinished
    end.

(** [combinator_sequence]: [p1(in, result) && p2(in, result)]. *)
Definition sequence {R : Type} (p1 p2 : parser R) : parser R :=
  fun fuel s result =>
    match p1 fuel s result with
    | Done true s1 r1 => p2 fuel s1 r1
    | Done false s1 r1 => Done false s1 r1
    | Thrown e => Thrown e
    | Unfinished => Unfinished
    end.

(** [combinator_many]: [while (p(in, result)); return true;], one unit of
    fuel for each turn of the loop. *)
Fixpoint many {R : Type} (p : parser R) (fuel : nat) (s : pstream)
    (result : option R) : outcome (bool * option R) :=
  match fuel with
  | O => Unfinished
  | S k =>
      match p k s result with
      | Done true s1 r1 => many p k s1 r1
      | Done false s1 r1 => Done true s1 r1
      | Thrown e => Thrown e
      | Unfinished => Unfinished
      end
  end.

(** [combinator_discard]: the parser runs on a null slot, the caller's is
    not touched. *)
Definition discard {T R : Type} (p : parser T) : parser R :=
  fun fuel s result =>
    match p fuel s None with
    | Returned (b, _) s1 => Done b s1 result
    | Thrown e => Thrown e
    | Unfinished => Unfinished
    end.

(** [some(p)] is [p && many(p)]. *)
Definition some {R : Type} (p : parser R) : parser R := sequence p (many p).

(** ** Reducer combinators *)

(** A result type of a parser in a pack: its values and the value that
    value-initialisation ([tmp_type tmp {}]) gives. *)
Record rtype : Type := mk_rtype {
  carrier :> Type;
  init : carrier
}.

Definition string_t : rtype := mk_rtype string "".
Definition int_t : rtype := mk_rtype Z 0.

(** A non-empty pack [Parsers...] with result types [T, Ts...], and the
    [tuple<typename Parsers::result_type...>] of its temporaries. *)
Fixpoint pack (T : rtype) (Ts : list rtype) : Type :=
  match Ts with
  | [] => parser T
  | T' :: Ts' => (parser T * pack T' Ts')%type
  end.

Fixpoint tuple (T : rtype) (Ts : list rtype) : Type :=
  match Ts with
  | [] => carrier T
  | T' :: Ts' => (carrier T * tuple T' Ts')%type
  end.

Fixpoint tuple_init (T : rtype) (Ts : list rtype) : tuple T Ts :=
  match Ts with
  | [] => init T
  | T' :: Ts' => (init T, tuple_init T' Ts')
  end.

(** The temporary after a call that was handed its address. *)
Definition pointee {T : Type} (before : T) (after : option T) : T :=
  match after with
  | Some r => r
  | None => before
  end.

(** [fmap_choice::any_parsers]: [i0] is the index [I0] of the head of the
    pack (the [size_t] arguments of the source only pick the overload);
    the answer is the index of the parser that succeeded, or -1, together
    with the temporaries as the calls left them.  The source instantiates
    it for packs of one and of two parsers only (see [instantiates]); on
    a longer pack the definition follows the recursion the two overloads
    spell out, and what is stated below of a return of [any] keeps to
    packs of one and of two. *)
Fixpoint any_parsers (T : rtype) (Ts : list rtype) (i0 : Z) {struct Ts}
  : pack T Ts -> nat -> pstream -> tuple T Ts -> outcome (Z * tuple T Ts) :=
  match Ts with
  | [] => fun p fuel s rs =>
      match p fuel s (Some rs) with
      | Done true s1 r1 => Returned (i0, pointee rs r1) s1
      | Done false s1 r1 => Returned (-1, pointee rs r1) s1
      | Thrown e => Thrown e
      | Unfinished => Unfinished
      end
  | T' :: Ts' => fun ps fuel s rs =>
      match fst ps fuel s (Some (fst rs)) with
      | Done true s1 r1 => Returned (i0, (pointee (fst rs) r1, snd rs)) s1
      | Done false s1 r1 =>
          match any_parsers T' Ts' (i0 + 1) (snd ps) fuel s1 (snd rs) with
          | Returned (i, rs') s2 => Returned (i, (pointee (fst rs) r1, rs')) s2
          | Thrown e => Thrown e
          | Unfinished => Unfinished
          end
      | Thrown e => Thrown e
      | Unfinished => Unfinished
      end
  end.

(** A reducer for [any]: [f(result, i, get<I>(tmp)...)], as the slot it
    leaves behind [result]. *)
Definition choice_functor (R : Type) (T : rtype) (Ts : list rtype) : Type :=
  option R -> Z -> tuple T Ts -> option R.

(** [fmap_choice::fmap_any], which is all [operator()] calls. *)
Definition fmap_choice {R : Type} {T : rtype} {Ts : list rtype}
    (f : choice_functor R T Ts) (ps : pack T Ts) : parser R :=
  fun fuel s result =>
    let tmp := tuple_init T Ts in
    match any_parsers T Ts 0 ps fuel s tmp with
    | Returned (i, tmp') s1 =>
        if i >=? 0 then Done true s1 (f result i tmp')
        else Done false s1 result
    | Thrown e => Thrown e
    | Unfinished => Unfinished
    end.

Definition any {R : Type} {T : rtype} {Ts : list rtype}
    (f : choice_functor R T Ts) (ps : pack T Ts) : parser R :=
  fmap_choice f ps.

(** [fmap_sequence::all_parsers], with the same two overloads as
    [any_parsers] and so, in the source, for packs of one and of two
    parsers only. *)
Fixpoint all_parsers (T : rtype) (Ts : list rtype) {struct Ts}
  : pack T Ts -> nat -> pstream -> tuple T Ts -> outcome (bool * tuple T Ts) :=
  match Ts with
  | [] => fun p fuel s rs =>
      match p fuel s (Some rs) with
      | Returned (b, r1) s1 => Returned (b, pointee rs r1) s1
      | Thrown e => Thrown e
      | Unfinished => Unfinished
      end
  | T' :: Ts' => fun ps fuel s rs =>
      match fst ps fuel s (Some (fst rs)) with
      | Done true s1 r1 =>
          match all_parsers T' Ts' (snd ps) fuel s1 (snd rs) with
          | Returned (b, rs') s2 => Returned (b, (pointee (fst rs) r1, rs')) s2
          | Thrown e => Thrown e
          | Unfinished => Unfinished
          end
      | Done false s1 r1 => Returned (false, (pointee (fst rs) r1, snd rs)) s1
      | Thrown e => Thrown e
      | Unfinished => Unfinished
      end
  end.

(** A reducer for [all]: [f(result, get<I>(tmp)...)]. *)
Definition sequence_functor (R : Type) (T : rtype) (Ts : list rtype) : Type :=
  option R -> tuple T Ts -> option R.

(** [fmap_sequence::fmap_all]. *)
Definition fmap_sequence {R : Type} {T : rtype} {Ts : list rtype}
    (f : sequence_functor R T Ts) (ps : pack T Ts) : parser R :=
  fun fuel s result =>
    let tmp := tuple_init T Ts in
    match all_parsers T Ts ps fuel s tmp with
    | Returned (true, tmp') s1 => Done true s1 (f result tmp')
    | Returned (false, _) s1 => Done false s1 result
    | Thrown e => Thrown e
    | Unfinished => Unfinished
    end.

Definition all {R : Type} {T : rtype} {Ts : list rtype}
    (f : sequence_functor R T Ts) (ps : pack T Ts) : parser R :=
  fmap_sequence f ps.

(** ** The packs the header instantiates *)

(** A call of [any_parsers] or of [all_parsers]: the number of indices it
    names as template arguments and the number of function arguments it
    passes. *)
Record overload_call : Type := mk_overload_call {
  indices : nat;
  arguments : nat
}.

(** The first overload, [template <typename Rs, size_t I0, size_t... Is>]
    on [(pstream &in, Rs &rs, size_t, size_t is...)], takes one index or
    more and, [size_t is...] being a parameter [is] followed by an
    ellipsis, four arguments or more.  The second,
    [template <typename Rs, size_t I0>] on [(pstream &in, Rs &rs, size_t)],
    takes one index and three arguments. *)
Definition recursive_overload (c : overload_call) : bool :=
  (1 <=? indices c)%nat && (4 <=? arguments c)%nat.

Definition last_overload (c : overload_call) : bool :=
  (indices c =? 1)%nat && (arguments c =? 3)%nat.

(** [fmap_any] and [fmap_all] call with the [n] indices of the pack, as
    template arguments and again behind [in] and [tmp]; the first overload
    calls on with the indices [Is...] and the three arguments
    [in, rs, is]. *)
Definition outer_call (n : nat) : overload_call :=
  mk_overload_call n (2 + n).

Definition inner_call (n : nat) : overload_call :=
  mk_overload_call (n - 1) 3.

(** A pack of [n] parsers instantiates when the outer call finds the
    second overload, or finds the first and the call in its body, which
    passes three arguments, finds the second. *)
Definition instantiates (n : nat) : bool :=
  last_overload (outer_call n)
  || (recursive_overload (outer_call n) && last_overload (inner_call n)).

(** ** Vocabulary of the properties *)

(** The symbols of a file by position, end-of-input past its end. *)
Definition sym_at (f : streambuf) (i : nat) : Z :=
  nth i (map to_int_type f) EOF.

(** The symbols the cursor has moved past after [k] advances, and the
    symbols those advances have brought into the lookahead. *)
Definition consumed (f : streambuf) (k : nat) : list Z :=
  map (sym_at f) (seq 0 k).
Definition loaded (f : streambuf) (k : nat) : list Z :=
  map (sym_at f) (seq 1 k).

Definition is_newline (c : Z) : bool := c =? 10.

Definition newlines (l : list Z) : Z :=
  Z.of_nat (List.length (filter is_newline l)).

Definition printables (l : list Z) : Z :=
  Z.of_nat (List.length (filter CType.isprint l)).

(** The part of [l] after its last newline, all of [l] when it has none. *)
Fixpoint since_last_newline (l : list Z) : list Z :=
  match l with
  | [] => []
  | c :: r =>
      if existsb is_newline r then since_last_newline r
      else if is_newline c then r
      else c :: r
  end.

(** The cursor after [k] advances over a file. *)
Definition cursor_after (f : streambuf) (k : nat) : pstream :=
  Nat.iter k next (pstream_of f).

(** The states a cursor can be in. *)
Definition cursor (s : pstream) : Prop :=
  exists f k, s = cursor_after f k.

(** The symbols of the input not yet consumed: the lookahead, unless it is
    end-of-input, and what the buffer still holds. *)
Definition pending (s : pstream) : nat :=
  (if sym s =? EOF then 0 else 1) + List.length (in_ s).

(** Every success of [p] consumes at least one symbol. *)
Definition consuming {R : Type} (p : parser R) : Prop :=
  forall fuel s result s1 r1,
    p fuel s result = Done true s1 r1 -> (pending s1 < pending s)%nat.

(** With enough fuel the call settles on [o]. *)
Definition settles {R : Type} (p : parser R) (s : pstream)
    (result : option R) (o : outcome (bool * option R)) : Prop :=
  o <> Unfinished /\ exists n, forall m, (n <= m)%nat -> p m s result = o.



(** A call of [p] that returns false hands the slot back as it got it. *)
Definition slot_safe {R : Type} (p : parser R) : Prop :=
  forall fuel s result s1 r1,
    p fuel s result = Done false s1 r1 -> r1 = result.

(** Predicates put together from [is_any], the classes, [is_char] of a
    character that is not the one of [is_eof], and [||]. *)
Inductive eof_free : predicate -> Prop :=
| ef_any : eof_free is_any
| ef_space : eof_free is_space
| ef_digit : eof_free is_digit
| ef_upper : eof_free is_upper
| ef_lower : eof_free is_lower
| ef_alpha : eof_free is_alpha
| ef_alnum : eof_free is_alnum
| ef_print : eof_free is_print
| ef_char : forall c, c <> char_of_int EOF -> eof_free (is_char c)
| ef_either : forall p q, eof_free p -> eof_free q -> eof_free (is_either p q).

(** Only the temporary at index [k] differs from its initial value. *)
Fixpoint only_populated (T : rtype) (Ts : list rtype) (k : nat) {struct Ts}
  : tuple T Ts -> Prop :=
  match Ts with
  | [] => fun _ => k = O
  | T' :: Ts' => fun ts =>
      match k with
      | O => snd ts = tuple_init T' Ts'
      | S k' => fst ts = init T /\ only_populated T' Ts' k' (snd ts)
      end
  end.

(** ** Derived parsers and further vocabulary *)

(** [option(p)] is [p || succ]. *)
Module Convenience.
Definition option {R : Type} (p : parser R) : parser R := choice p succ.
End Convenience.

(** The longest prefix of [l] whose elements all pass [g]. *)
Fixpoint take_while {A : Type} (g : A -> bool) (l : list A) : list A :=
  match l with
  | [] => []
  | a :: r => if g a then a :: take_while g r else []
  end.

(** The characters a run of [push_back] appends for the symbols [l]. *)
Definition text_of (l : list Z) : string :=
  string_of_list_ascii (map char_of_int l).

(** The symbols at the positions [k], ..., [k + n - 1] of a file. *)
Definition symbols (f : streambuf) (k n : nat) : list Z :=
  map (sym_at f) (seq k n).

(** The parsers put together from [accept], [expect], [succ], [fail],
    [||], [&&] and [many], all on the one string slot. *)
Inductive recogniser : parser string -> Prop :=
| rec_accept : forall pred, recogniser (accept pred)
| rec_expect : forall pred, recogniser (expect pred)
| rec_succ : recogniser succ
| rec_fail : recogniser fail
| rec_choice : forall p q,
    recogniser p -> recogniser q -> recogniser (choice p q)
| rec_sequence : forall p q,
    recogniser p -> recogniser q -> recogniser (sequence p q)
| rec_many : forall p, recogniser p -> recogniser (many p).

(** The slot after [n] symbols of the file, from position [k] on, have
    been appended to it. *)
Definition appended (f : streambuf) (k n : nat) (result : option string)
  : option string :=
  option_map (fun t => (t ++ text_of (symbols f k n))%string) result.

(** Whenever [p] returns, on a cursor over any file, it has advanced the
    cursor over some [n] symbols and appended just these to the slot. *)
Definition transcribes (p : parser string) : Prop :=
  forall fuel f k result b s1 r1,
    p fuel (cursor_after f k) result = Done b s1 r1 ->
    exists n, s1 = cursor_after f (k + n) /\ r1 = appended f k n result.

(** [p] has no return of false. *)
Definition never_false {R : Type} (p : parser R) : Prop :=
  forall fuel s result s1 r1, p fuel s result <> Done false s1 r1.

(** The verdict and the stream of an outcome, the slot left out. *)
Definition verdict {R : Type} (o : outcome (bool * option R))
  : outcome bool :=
  match o with
  | Returned (b, _) s => Returned b s
  | Thrown e => Thrown e
  | Unfinished => Unfinished
  end.

(** ** The parser state of [prolog.cpp] *)

Module Prolog.

(** A [type_variable*]: the objects made by [new type_variable(n)] are
    never freed, so a pointer is the rank of its allocation and the free
    store the list of the names the objects were made with. *)
Definition var_ptr : Type := nat.

(** [struct parser_state].  A [name_t] points into [names], which holds
    each string once, so the string itself stands for it; [variables] is
    keyed by the address of such a string, that is, by the string. *)
Record parser_state : Type := mk_parser_state {
  names : set string;
  variables : list (string * var_ptr);
  repeated : set var_ptr;
  repeated_in_goal : set var_ptr
}.

(** The state and the free store, passed through every functor. *)
Record world : Type := mk_world {
  st : parser_state;
  heap : list string
}.

(** [parser_state()]. *)
Definition parser_state_init : parser_state := mk_parser_state [] [] [] [].

(** [parser_state::get_name]. *)
Definition get_name (name : string) (s : parser_state)
  : string * parser_state :=
  if set_mem string_dec name (names s)
  then (name, s)
  else (name, mk_parser_state (set_add string_dec name (names s))
                              (variables s) (repeated s)
                              (repeated_in_goal s)).

(** [variables.find] on the address of the interned name. *)
Fixpoint find_variable (n : string) (vs : list (string * var_ptr))
  : option var_ptr :=
  match vs with
  | [] => None
  | (k, v) :: r => if string_dec k n then Some v else find_variable n r
  end.

(** [return_variable]: the pointer it stores through [res], and the world
    after it. *)
Definition return_variable (name : string) (w : world) : var_ptr * world :=
  let '(n, s1) := get_name name (st w) in
  match find_variable n (variables s1) with
  | None =>
      let var := List.length (heap w) in
      (var,
       mk_world (mk_parser_state (names s1) (variables s1 ++ [(n, var)])
                                 (repeated s1) (repeated_in_goal s1))
                (heap w ++ [n]))
  | Some v =>
      (v,
       mk_world (mk_parser_state (names s1) (variables s1)
                                 (set_add Nat.eq_dec v (repeated s1))
                                 (repeated_in_goal s1))
                (heap w))
  end.

(** [return_head], as to the state: [repeated_in_goal = repeated]. *)
Definition return_head (w : world) : world :=
  mk_world (mk_parser_state (names (st w)) (variables (st w))
                            (repeated (st w)) (repeated (st w)))
           (heap w).

(** [return_clause], as to the state: the set of variables the new clause
    is given, and the three [clear()]. *)
Definition return_clause (w : world) : set var_ptr * world :=
  (repeated_in_goal (st w),
   mk_world (mk_parser_state (names (st w)) [] [] []) (heap w)).

(** [return_variable] on the names of a clause, one after the other. *)
Fixpoint return_variables (ns : list string) (w : world)
  : list var_ptr * world :=
  match ns with
  | [] => ([], w)
  | n :: r =>
      let '(v, w1) := return_variable n w in
      let '(vs, w2) := return_variables r w1 in
      (v :: vs, w2)
  end.

(** A world as the functors keep it: no name twice in the table, every
    key of [variables] in the table and bound once, every variable bound
    to one key only and made with that key, and [repeated] among the
    bound variables. *)
Definition well_formed (w : world) : Prop :=
  NoDup (names (st w))
  /\ NoDup (map fst (variables (st w)))
  /\ NoDup (map snd (variables (st w)))
  /\ (forall n v, In (n, v) (variables (st w)) ->
        In n (names (st w)) /\ nth_error (heap w) v = Some n)
  /\ (forall v, In v (repeated (st w)) ->
        In v (map snd (variables (st w)))).

End Prolog.

(** ** The stream: buffer, lookahead and counters *)

Section Stream_facts.

Lemma int_wrap_id (z : Z) : INT_MIN <= z <= INT_MAX -> int_wrap z = z.
Proof.
  unfold int_wrap, INT_MIN, INT_MAX. intros H.
  rewrite Z.mod_small; lia.
Qed.

Lemma int_wrap_range (z : Z) : INT_MIN <= int_wrap z <= INT_MAX.
Proof.
  unfold int_wrap, INT_MIN, INT_MAX.
  pose proof (Z.mod_pos_bound (z - -2147483648) 4294967296). lia.
Qed.

Lemma incr_eq (z : Z) : INT_MIN <= z < INT_MAX -> incr z = z + 1.
Proof.
  intros H. unfold incr. apply int_wrap_id. unfold INT_MIN, INT_MAX in *. lia.
Qed.

Lemma to_int_type_range (c : ascii) : 0 <= to_int_type c < 256.
Proof.
  unfold to_int_type. pose proof (N_ascii_bounded c). lia.
Qed.

Lemma to_int_type_not_EOF (c : ascii) : to_int_type c <> EOF.
Proof.
  pose proof (to_int_type_range c). unfold EOF. lia.
Qed.

Lemma sgetc_skipn (f : streambuf) (n : nat) :
  sgetc (skipn n f) = sym_at f n.
Proof.
  unfold sym_at. revert f.
  induction n as [|n IH]; intros [|c r]; simpl; try reflexivity.
  apply IH.
Qed.

Lemma snextc_skipn (f : streambuf) (n : nat) :
  snd (snextc (skipn n f)) = skipn (S n) f.
Proof.
  revert f.
  induction n as [|n IH]; intros [|c r]; try reflexivity.
  exact (IH r).
Qed.

Lemma next_in (s : pstream) : in_ (next s) = snd (snextc (in_ s)).
Proof.
  unfold next.
  destruct (sgetc (in_ s) =? 10); [reflexivity|].
  destruct (CType.isprint (sgetc (in_ s))); reflexivity.
Qed.

Lemma next_sym (s : pstream) : sym (next s) = sgetc (in_ s).
Proof.
  unfold next.
  destruct (sgetc (in_ s) =? 10); [reflexivity|].
  destruct (CType.isprint (sgetc (in_ s))); reflexivity.
Qed.

Lemma next_count (s : pstream) : count (next s) = incr (count s).
Proof.
  unfold next.
  destruct (sgetc (in_ s) =? 10); [reflexivity|].
  destruct (CType.isprint (sgetc (in_ s))); reflexivity.
Qed.

Lemma cursor_after_S (f : streambuf) (k : nat) :
  cursor_after f (S k) = next (cursor_after f k).
Proof. reflexivity. Qed.

(** After [k] advances the buffer holds the file from position [k + 1]
    on and the lookahead is the symbol at position [k]. *)
Lemma cursor_after_buffer (f : streambuf) (k : nat) :
  in_ (cursor_after f k) = skipn (S k) f
  /\ sym (cursor_after f k) = sym_at f k.
Proof.
  induction k as [|k [IHin IHsym]].
  - unfold cursor_after, pstream_of, sym_at. destruct f; simpl; auto.
  - rewrite cursor_after_S, next_in, next_sym, IHin.
    split; [apply snextc_skipn | apply sgetc_skipn].
Qed.

Lemma cursor_count_range (s : pstream) :
  cursor s -> INT_MIN <= count s <= INT_MAX.
Proof.
  intros [f [k ->]]. destruct k as [|k].
  - unfold cursor_after, pstream_of. destruct (sbumpc f). simpl.
    unfold INT_MIN, INT_MAX. lia.
  - rewrite cursor_after_S, next_count. apply int_wrap_range.
Qed.

(** A cursor whose lookahead is end-of-input has an empty buffer. *)
Lemma cursor_eof_buffer (s : pstream) :
  cursor s -> sym s = EOF -> in_ s = [].
Proof.
  intros [f [k ->]] H.
  destruct (cursor_after_buffer f k) as [Hin Hsym].
  rewrite Hsym in H. rewrite Hin. clear Hin Hsym.
  unfold sym_at in H. revert f H.
  induction k as [|k IH]; intros [|c r] H; try reflexivity.
  - exfalso. exact (to_int_type_not_EOF c H).
  - exact (IH r H).
Qed.

Lemma cursor_next (s : pstream) : cursor s -> cursor (next s).
Proof.
  intros [f [k ->]]. exists f, (S k). reflexivity.
Qed.

(** An advance at end-of-input moves the byte count and nothing else. *)
Lemma next_at_eof (s : pstream) :
  in_ s = [] ->
  next s = mk_pstream [] (incr (count s)) (row s) (col s) EOF.
Proof.
  intros H. unfold next. rewrite H. reflexivity.
Qed.

End Stream_facts.

(** ** Lines and columns of a list of symbols *)

Section Position_facts.

Lemma loaded_S (f : streambuf) (k : nat) :
  loaded f (S k) = loaded f k ++ [sym_at f (S k)].
Proof.
  unfold loaded. rewrite seq_S, map_app. reflexivity.
Qed.

Lemma loaded_length (f : streambuf) (k : nat) : List.length (loaded f k) = k.
Proof.
  unfold loaded. rewrite length_map, length_seq. reflexivity.
Qed.

Lemma filter_length_le (g : Z -> bool) (l : list Z) :
  (List.length (filter g l) <= List.length l)%nat.
Proof.
  induction l as [|c r IH]; simpl; [lia|].
  destruct (g c); simpl; lia.
Qed.

Lemma newlines_snoc (l : list Z) (c : Z) :
  newlines (l ++ [c]) = newlines l + (if is_newline c then 1 else 0).
Proof.
  unfold newlines. rewrite filter_app, length_app. simpl.
  destruct (is_newline c); simpl; lia.
Qed.

Lemma printables_snoc (l : list Z) (c : Z) :
  printables (l ++ [c]) = printables l + (if CType.isprint c then 1 else 0).
Proof.
  unfold printables. rewrite filter_app, length_app. simpl.
  destruct (CType.isprint c); simpl; lia.
Qed.

Lemma has_newline_snoc (l : list Z) (c : Z) :
  existsb is_newline (l ++ [c]) = existsb is_newline l || is_newline c.
Proof.
  rewrite existsb_app. simpl. rewrite orb_false_r. reflexivity.
Qed.

Lemma since_last_newline_snoc (l : list Z) (c : Z) :
  since_last_newline (l ++ [c]) =
  if is_newline c then [] else since_last_newline l ++ [c].
Proof.
  induction l as [|c0 r IH]; simpl.
  - destruct (is_newline c); reflexivity.
  - rewrite has_newline_snoc, IH.
    destruct (is_newline c) eqn:Hc.
    + rewrite orb_true_r. reflexivity.
    + rewrite orb_false_r.
      destruct (existsb is_newline r); [reflexivity|].
      destruct (is_newline c0); reflexivity.
Qed.

Lemma since_last_newline_length (l : list Z) :
  (List.length (since_last_newline l) <= List.length l)%nat.
Proof.
  induction l as [|c r IH]; simpl; [lia|].
  destruct (existsb is_newline r); [lia|].
  destruct (is_newline c); simpl; lia.
Qed.

Lemma newlines_range (l : list Z) :
  0 <= newlines l <= Z.of_nat (List.length l).
Proof.
  unfold newlines. pose proof (filter_length_le is_newline l). lia.
Qed.

Lemma printables_since_range (l : list Z) :
  0 <= printables (since_last_newline l) <= Z.of_nat (List.length l).
Proof.
  unfold printables.
  pose proof (filter_length_le CType.isprint (since_last_newline l)).
  pose proof (since_last_newline_length l). lia.
Qed.

Lemma newline_not_printable (c : Z) : is_newline c = true -> CType.isprint c = false.
Proof.
  unfold is_newline. intros H. apply Z.eqb_eq in H. subst c. reflexivity.
Qed.

End Position_facts.

(** ** The cursor *)

(** C3, as written, fails.  On the one-line file holding a single newline,
    read to the end, the row is not one more than the number of newlines
    consumed; on the file holding the single letter a, read to the end,
    the column is not one more than the number of printable symbols
    consumed. *)
Lemma position_of_consumed_counterexample :
  let f := ["010"%char] in
  let g := ["a"%char] in
  (sym (cursor_after f 1) = EOF /\ sym (cursor_after g 1) = EOF)
  /\ row (cursor_after f 1) <> 1 + newlines (consumed f 1)
  /\ col (cursor_after g 1) <>
       printables (since_last_newline (consumed g 1)) + 1.
Proof.
  cbv zeta. split; [split; reflexivity|].
  split; vm_compute; discriminate.
Qed.

(** C3, amended.  After [k] advances, the counters not overflowing, the
    row is one more than the number of newlines the advances have brought
    into the lookahead, and the column is the number of printable symbols
    brought in since the last such newline, plus one when there is none. *)
Theorem position_of_loaded (f : streambuf) (k : nat) :
  Z.of_nat k < INT_MAX ->
  row (cursor_after f k) = 1 + newlines (loaded f k)
  /\ col (cursor_after f k) =
       printables (since_last_newline (loaded f k))
       + (if existsb is_newline (loaded f k) then 0 else 1).
Proof.
  induction k as [|k IH]; intros Hk.
  - unfold cursor_after, pstream_of. destruct (sbumpc f). simpl. split; reflexivity.
  - destruct IH as [IHrow IHcol]; [lia|].
    pose proof (newlines_range (loaded f k)) as Hn.
    pose proof (printables_since_range (loaded f k)) as Hp.
    rewrite loaded_length in Hn, Hp.
    rewrite loaded_S, newlines_snoc, since_last_newline_snoc, has_newline_snoc.
    rewrite cursor_after_S. unfold next.
    destruct (cursor_after_buffer f k) as [Hin _].
    rewrite Hin, sgetc_skipn.
    fold (is_newline (sym_at f (S k))).
    destruct (is_newline (sym_at f (S k))) eqn:Hnl; cbn [row col].
    + rewrite orb_true_r. split; [|reflexivity].
      rewrite incr_eq; [lia|]. unfold INT_MIN, INT_MAX in *. lia.
    + rewrite orb_false_r, printables_snoc.
      destruct (CType.isprint (sym_at f (S k))); cbn [row col].
      * split; [lia|].
        rewrite incr_eq; [lia|].
        unfold INT_MIN, INT_MAX in *.
        destruct (existsb is_newline (loaded f k)); lia.
      * split; lia.
Qed.

Lemma position_of_loaded_witness :
  let f := file "ab" ++ ["010"%char] ++ file "cd" in
  Z.of_nat 4 < INT_MAX
  /\ row (cursor_after f 4) = 2
  /\ col (cursor_after f 4) = 2.
Proof.
  cbv zeta. split; [reflexivity|].
  destruct (position_of_loaded (file "ab" ++ ["010"%char] ++ file "cd") 4)
    as [Hrow Hcol]; [reflexivity|].
  split; [rewrite Hrow | rewrite Hcol]; reflexivity.
Defined.

(** C10.  Once the lookahead of a cursor is end-of-input, any number of
    further advances leaves it there with the same row and column while
    the byte count goes up by one each time; and [accept(is_eof)] then
    succeeds and advances although no symbol is left, so that it is not a
    parser whose successes consume. *)
Theorem eof_is_absorbing (s : pstream) (j : nat) :
  cursor s -> sym s = EOF -> count s + Z.of_nat j <= INT_MAX ->
  let s' := Nat.iter j next s in
  (sym s' = EOF /\ row s' = row s /\ col s' = col s
   /\ count s' = count s + Z.of_nat j)
  /\ (forall fuel result,
        accept is_eof fuel s' result =
        Done true (next s') (option_map (fun r => push_back r EOF) result))
  /\ pending (next s') = pending s'
  /\ ~ consuming (accept is_eof).
Proof.
  intros Hc Hs Hn. cbv zeta.
  pose proof (cursor_eof_buffer s Hc Hs) as Hin.
  pose proof (cursor_count_range s Hc) as Hrange.
  assert (Hiter : forall i, count s + Z.of_nat i <= INT_MAX ->
            Nat.iter i next s =
            mk_pstream [] (count s + Z.of_nat i) (row s) (col s) EOF).
  { induction i as [|i IH]; intros Hi.
    - simpl. rewrite Z.add_0_r. destruct s; simpl in *. subst. reflexivity.
    - change (Nat.iter (S i) next s) with (next (Nat.iter i next s)).
      rewrite IH by lia. rewrite next_at_eof by reflexivity.
      cbn [count row col]. rewrite incr_eq by lia.
      f_equal. lia. }
  rewrite (Hiter j Hn). cbn [sym row col count].
  split; [repeat split|].
  split; [intros fuel result; reflexivity|].
  split; [reflexivity|].
  intros Hcons.
  specialize (Hcons O (mk_pstream [] 0 1 1 EOF) None
                    (next (mk_pstream [] 0 1 1 EOF)) None eq_refl).
  vm_compute in Hcons. lia.
Qed.

Lemma eof_is_absorbing_witness :
  let s := cursor_after (file "a") 1 in
  cursor s /\ sym s = EOF /\ count s + Z.of_nat 2 <= INT_MAX
  /\ count (Nat.iter 2 next s) = 3
  /\ sym (Nat.iter 2 next s) = EOF.
Proof.
  cbv zeta.
  assert (Hc : cursor (cursor_after (file "a") 1))
    by (exists (file "a"), 1%nat; reflexivity).
  assert (Hs : sym (cursor_after (file "a") 1) = EOF) by reflexivity.
  assert (Hn : count (cursor_after (file "a") 1) + Z.of_nat 2 <= INT_MAX)
    by (vm_compute; discriminate).
  split; [exact Hc|]. split; [exact Hs|]. split; [exact Hn|].
  destruct (eof_is_absorbing _ 2 Hc Hs Hn) as [[H1 [_ [_ H4]]] _].
  split; [exact H4 | exact H1].
Defined.

(** ** Predicates at end-of-input *)

(** C4, as written, fails: the complement of [is_digit], which is not the
    end-of-input predicate, holds of end-of-input. *)
Lemma negation_accepts_eof_counterexample :
  is_not is_digit <> is_eof /\ test (is_not is_digit) EOF <> false.
Proof.
  split.
  - intros H. apply (f_equal name) in H. vm_compute in H. discriminate.
  - vm_compute. discriminate.
Qed.

(** C4, amended.  A predicate put together from [is_any], the classes,
    [is_char] of a character other than that of [is_eof], and disjunction
    is false of end-of-input; the complement of such a predicate is true
    of it. *)
Theorem eof_free_rejects_eof (p : predicate) :
  eof_free p -> test p EOF = false /\ test (is_not p) EOF = true.
Proof.
  intros H.
  assert (Hp : test p EOF = false).
  { induction H as [ | | | | | | | | c Hc | p q _ IHp _ IHq ];
      try reflexivity.
    - unfold is_char; cbn [test].
      apply Z.eqb_neq. intros Hk. apply Hc.
      unfold int_of_char in Hk.
      pose proof (to_int_type_range c) as Hr.
      destruct (to_int_type c <? 128) eqn:Hlt.
      + unfold EOF in Hk. lia.
      + assert (Hv : to_int_type c = 255) by (unfold EOF in Hk; lia).
        unfold to_int_type in Hv.
        rewrite <- (ascii_N_embedding c).
        replace (N_of_ascii c) with 255%N by lia.
        reflexivity.
    - unfold is_either; cbn [test]. rewrite IHp, IHq. reflexivity. }
  split; [exact Hp|].
  unfold is_not; cbn [test]. rewrite Hp. reflexivity.
Qed.

Lemma eof_free_rejects_eof_witness :
  let p := is_either is_alnum (is_char "_") in
  eof_free p /\ test p EOF = false /\ test (is_not p) EOF = true.
Proof.
  cbv zeta.
  assert (H : eof_free (is_either is_alnum (is_char "_"))).
  { apply ef_either; [apply ef_alnum | apply ef_char]. discriminate. }
  split; [exact H | exact (eof_free_rejects_eof _ H)].
Defined.

(** ** The primitive recognisers *)

(** C9.  [accept(p)] on a lookahead that [p] rejects returns false, and
    the cursor it leaves has the row, column, byte count, lookahead and
    buffer it had. *)
Theorem accept_mismatch_leaves_cursor (p : predicate) (fuel : nat)
    (s : pstream) (result : option string) :
  test p (get_sym s) = false ->
  exists s1 r1,
    accept p fuel s result = Done false s1 r1
    /\ get_row s1 = get_row s /\ get_col s1 = get_col s
    /\ get_count s1 = get_count s /\ get_sym s1 = get_sym s
    /\ in_ s1 = in_ s.
Proof.
  intros H. exists s, result. unfold accept. rewrite H.
  cbn [negb]. repeat split.
Qed.

Lemma accept_mismatch_leaves_cursor_witness :
  let s := next (pstream_of (file "1x")) in
  test is_digit (get_sym s) = false
  /\ exists s1 r1,
       accept is_digit 0%nat s (Some "1") = Done false s1 r1
       /\ get_row s1 = 1 /\ get_col s1 = 2
       /\ get_count s1 = 1 /\ get_sym s1 = 120
       /\ in_ s1 = [].
Proof.
  cbv zeta. split; [reflexivity|].
  exact (accept_mismatch_leaves_cursor is_digit 0%nat
           (next (pstream_of (file "1x"))) (Some "1") eq_refl).
Defined.

(** C5.  [expect(pred)] on a lookahead that [pred] rejects throws the
    parse error made of the current row and column, the lookahead and
    [pred.name]; on a lookahead that [pred] holds of it appends the symbol
    to the slot, advances and returns true, which is what [accept(pred)]
    does there. *)
Theorem expect_throws_or_accepts (pred : predicate) (fuel : nat)
    (s : pstream) (result : option string) :
  (test pred (get_sym s) = false ->
     expect pred fuel s result =
     Thrown (mk_parse_error "expected" (get_row s) (get_col s)
                            (name pred) (get_sym s)))
  /\ (test pred (get_sym s) = true ->
        expect pred fuel s result =
        Done true (next s)
             (option_map (fun r => push_back r (get_sym s)) result)
        /\ expect pred fuel s result = accept pred fuel s result).
Proof.
  unfold expect, accept, error.
  split; intros H; rewrite H; cbn [negb]; [reflexivity | split; reflexivity].
Qed.

Lemma expect_throws_or_accepts_witness :
  expect is_digit 0%nat (pstream_of (file "x")) (Some "") =
    Thrown (mk_parse_error "expected" 1 1 "digit" 120)
  /\ expect is_digit 0%nat (pstream_of (file "7x")) (Some "") =
       Done true (next (pstream_of (file "7x"))) (Some "7").
Proof.
  split.
  - exact (proj1 (expect_throws_or_accepts is_digit 0%nat
                    (pstream_of (file "x")) (Some "")) eq_refl).
  - exact (proj1 (proj2 (expect_throws_or_accepts is_digit 0%nat
                    (pstream_of (file "7x")) (Some "")) eq_refl)).
Defined.

(** ** Ordered choice and sequence *)

(** C1, as written, fails.  On the file "ax" the sequence of [accept('a')]
    and [accept('b')] consumes the a and returns false; the choice between
    it and [accept('x')] then runs [accept('x')] on what is left and
    returns true. *)
Lemma choice_commits_counterexample :
  let p := sequence (accept (is_char "a")) (accept (is_char "b")) in
  let q := accept (is_char "x") in
  let s := pstream_of (file "ax") in
  (exists s1 r1,
     p 0%nat s (Some "") = Done false s1 r1 /\ get_count s < get_count s1)
  /\ ~ (exists s1 r1, choice p q 0%nat s (Some "") = Done false s1 r1)
  /\ choice p q 0%nat s (Some "") = q 0%nat (next s) (Some "a").
Proof.
  cbv zeta. split; [|split].
  - eexists. eexists. split; [reflexivity|]. reflexivity.
  - intros [s1 [r1 H]]. vm_compute in H. discriminate.
  - reflexivity.
Qed.

(** C1, amended.  [p || q] runs [p] and returns true when [p] does;
    when [p] returns false it runs [q], on the stream and the slot as [p]
    left them and whether or not [p] consumed anything, and returns what
    [q] returns. *)
Theorem choice_runs_second_after_failure {R : Type} (p q : parser R)
    (fuel : nat) (s : pstream) (result : option R) :
  (forall s1 r1, p fuel s result = Done true s1 r1 ->
                 choice p q fuel s result = Done true s1 r1)
  /\ (forall s1 r1, p fuel s result = Done false s1 r1 ->
                    choice p q fuel s result = q fuel s1 r1).
Proof.
  unfold choice. split; intros s1 r1 H; rewrite H; reflexivity.
Qed.

Lemma choice_runs_second_after_failure_witness :
  let a := accept (is_char "a") in
  let b := accept (is_char "b") in
  choice a b 0%nat (pstream_of (file "ab")) (Some "") =
    Done true (next (pstream_of (file "ab"))) (Some "a")
  /\ choice a b 0%nat (pstream_of (file "b")) (Some "") =
       b 0%nat (pstream_of (file "b")) (Some "").
Proof.
  cbv zeta. split.
  - exact (proj1 (choice_runs_second_after_failure
                    (accept (is_char "a")) (accept (is_char "b")) 0%nat
                    (pstream_of (file "ab")) (Some "")) _ _ eq_refl).
  - exact (proj2 (choice_runs_second_after_failure
                    (accept (is_char "a")) (accept (is_char "b")) 0%nat
                    (pstream_of (file "b")) (Some "")) _ _ eq_refl).
Defined.

(** ** The result slot *)

Section Slot_facts.

Lemma many_never_false {R : Type} (p : parser R) (fuel : nat) (s : pstream)
    (result : option R) (s1 : pstream) (r1 : option R) :
  many p fuel s result <> Done false s1 r1.
Proof.
  revert s result.
  induction fuel as [|k IH]; intros s result; simpl; [discriminate|].
  destruct (p k s result) as [[[|] r] s'| e |]; try discriminate.
  apply IH.
Qed.

Lemma accept_slot_safe (pred : predicate) : slot_safe (accept pred).
Proof.
  intros fuel s result s1 r1. unfold accept.
  destruct (negb (test pred (get_sym s))); intros H; inversion H; reflexivity.
Qed.

Lemma expect_slot_safe (pred : predicate) : slot_safe (expect pred).
Proof.
  intros fuel s result s1 r1. unfold expect.
  destruct (negb (test pred (get_sym s))); intros H; inversion H.
Qed.

Lemma discard_slot_safe {T R : Type} (p : parser T) :
  slot_safe (@discard T R p).
Proof.
  intros fuel s result s1 r1. unfold discard.
  destruct (p fuel s None) as [[b r] s'| e |]; intros H; inversion H.
  reflexivity.
Qed.

Lemma choice_slot_safe {R : Type} (p q : parser R) :
  slot_safe p -> slot_safe q -> slot_safe (choice p q).
Proof.
  intros Hp Hq fuel s result s1 r1. unfold choice.
  destruct (p fuel s result) as [[[|] r] s'| e |] eqn:E; intros H;
    try discriminate.
  apply Hp in E. subst r. apply Hq in H. exact H.
Qed.

Lemma fmap_sequence_slot_safe {R : Type} {T : rtype} {Ts : list rtype}
    (f : sequence_functor R T Ts) (ps : pack T Ts) :
  slot_safe (fmap_sequence f ps).
Proof.
  intros fuel s result s1 r1. unfold fmap_sequence. cbv zeta.
  destruct (all_parsers T Ts ps fuel s (tuple_init T Ts))
    as [[[|] tmp] s'| e |]; intros H; inversion H.
  reflexivity.
Qed.

Lemma fmap_choice_slot_safe {R : Type} {T : rtype} {Ts : list rtype}
    (f : choice_functor R T Ts) (ps : pack T Ts) :
  slot_safe (fmap_choice f ps).
Proof.
  intros fuel s result s1 r1. unfold fmap_choice. cbv zeta.
  destruct (any_parsers T Ts 0 ps fuel s (tuple_init T Ts))
    as [[i tmp] s'| e |]; [|discriminate|discriminate].
  destruct (i >=? 0); intros H; inversion H.
  reflexivity.
Qed.

End Slot_facts.

(** C2, as written, fails.  On the file "ax" and an empty slot the sequence
    of [accept('a')] and [accept('b')] returns false and leaves the a in
    the slot. *)
Lemma failed_sequence_writes_counterexample :
  let p := sequence (accept (is_char "a")) (accept (is_char "b")) in
  let s := pstream_of (file "ax") in
  exists s1, p 0%nat s (Some "") = Done false s1 (Some "a")
             /\ Some "a" <> Some "".
Proof.
  cbv zeta. eexists. split; [reflexivity | discriminate].
Qed.

(** C2, amended.  [accept], [expect], [succ], [fail], [discard(p)],
    [many(p)], [all(f, ...)] and [any(f, ...)] hand the slot back as they
    got it whenever they return false, and so does [p || q] when [p] and
    [q] do.  A sequence [p && q] of two such parsers that returns false
    leaves the slot as it was when [p] returned false, and holding what
    [p] wrote when [p] returned true and [q] false. *)
Theorem slot_after_failure :
  (forall pred, slot_safe (accept pred))
  /\ (forall pred, slot_safe (expect pred))
  /\ (forall R, slot_safe (@succ R))
  /\ (forall R, slot_safe (@fail R))
  /\ (forall T R (p : parser T), slot_safe (@discard T R p))
  /\ (forall R (p : parser R), slot_safe (many p))
  /\ (forall R T Ts (f : sequence_functor R T Ts) ps, slot_safe (all f ps))
  /\ (forall R T Ts (f : choice_functor R T Ts) ps, slot_safe (any f ps))
  /\ (forall R (p q : parser R),
        slot_safe p -> slot_safe q -> slot_safe (choice p q))
  /\ (forall R (p q : parser R) fuel s result s2 r2,
        slot_safe p -> slot_safe q ->
        sequence p q fuel s result = Done false s2 r2 ->
        (p fuel s result = Done false s2 r2 /\ r2 = result)
        \/ (exists s1, p fuel s result = Done true s1 r2
                       /\ q fuel s1 r2 = Done false s2 r2)).
Proof.
  split; [exact accept_slot_safe|].
  split; [exact expect_slot_safe|].
  split; [intros R fuel s result s1 r1 H; inversion H|].
  split; [intros R fuel s result s1 r1 H; inversion H; reflexivity|].
  split; [intros T R p; apply discard_slot_safe|].
  split; [intros R p fuel s result s1 r1 H;
          exfalso; exact (many_never_false p fuel s result s1 r1 H)|].
  split; [intros R T Ts f ps; apply fmap_sequence_slot_safe|].
  split; [intros R T Ts f ps; apply fmap_choice_slot_safe|].
  split; [intros R p q; apply choice_slot_safe|].
  intros R p q fuel s result s2 r2 Hp Hq. unfold sequence.
  destruct (p fuel s result) as [[[|] r] s'| e |] eqn:E; intros H;
    try discriminate.
  - right. pose proof (Hq _ _ _ _ _ H) as Hr. subst r2.
    exists s'. split; [reflexivity | exact H].
  - left. inversion H; subst. split; [reflexivity|].
    exact (Hp _ _ _ _ _ E).
Qed.

Lemma slot_after_failure_witness :
  let a := accept (is_char "a") in
  let b := accept (is_char "b") in
  slot_safe a /\ slot_safe b
  /\ sequence a b 0%nat (pstream_of (file "ax")) (Some "") =
       Done false (next (pstream_of (file "ax"))) (Some "a")
  /\ exists s1,
       a 0%nat (pstream_of (file "ax")) (Some "") = Done true s1 (Some "a")
       /\ b 0%nat s1 (Some "a") =
            Done false (next (pstream_of (file "ax"))) (Some "a").
Proof.
  cbv zeta.
  destruct slot_after_failure as [Ha [_ [_ [_ [_ [_ [_ [_ [_ Hseq]]]]]]]]].
  split; [apply Ha|]. split; [apply Ha|]. split; [reflexivity|].
  destruct (Hseq string (accept (is_char "a")) (accept (is_char "b")) 0%nat
              (pstream_of (file "ax")) (Some "")
              (next (pstream_of (file "ax"))) (Some "a")
              (Ha _) (Ha _) eq_refl) as [[H _] | H].
  - vm_compute in H. discriminate.
  - exact H.
Defined.

(** ** The reducer combinators *)

Section Pack_facts.

Lemma inner_call_not_recursive (n : nat) :
  recursive_overload (inner_call n) = false.
Proof.
  unfold recursive_overload, inner_call. cbn [arguments].
  apply andb_false_r.
Qed.

Lemma instantiates_cases (n : nat) :
  instantiates n = true <-> n = 1%nat \/ n = 2%nat.
Proof.
  destruct n as [|[|[|n]]]; cbn; split; intros H;
    try discriminate H; try lia; auto.
Qed.

End Pack_facts.

(** C6 fails on the code for packs of three parsers or more.  The call
    [all_parsers<Rs, Is...>(in, rs, is)] in the body of the first overload
    passes three arguments whatever the pack, so that it can only find
    the second overload, which takes a single index: a pack instantiates
    exactly when it has one or two parsers, and for a pack of three or of
    four the call in the body finds no overload, the first included. *)
Theorem packs_of_one_or_two_instantiate (n : nat) :
  (instantiates n = true <-> n = 1%nat \/ n = 2%nat)
  /\ recursive_overload (inner_call n) = false
  /\ last_overload (inner_call 3) = false
  /\ last_overload (inner_call 4) = false
  /\ instantiates 3 = false
  /\ instantiates 4 = false.
Proof.
  split; [apply instantiates_cases|].
  split; [apply inner_call_not_recursive|].
  repeat split.
Qed.

(** C7, as written, fails.  On the file "ax" the first parser of the pack,
    the sequence of [accept('a')] and [accept('b')], returns false after
    it has put the a into its temporary; the second, [accept('x')],
    returns true; the reducer, which here stores its arguments, is called
    with index 1 and a first temporary that is not value-initialised. *)
Lemma any_temporaries_counterexample :
  let ps : pack string_t [string_t] :=
    (sequence (accept (is_char "a")) (accept (is_char "b")),
     accept (is_char "x")) in
  let f : choice_functor (Z * (string * string)) string_t [string_t] :=
    fun _ i ts => Some (i, ts) in
  (exists s1,
     any f ps 0%nat (pstream_of (file "ax")) None =
     Done true s1 (Some (1, ("a", "x"))))
  /\ "a" <> init string_t
  /\ ~ only_populated string_t [string_t] 1 ("a", "x").
Proof.
  cbv zeta. split; [|split].
  - eexists. reflexivity.
  - discriminate.
  - intros [H _]. discriminate H.
Qed.

(** C7, amended, for the packs the header instantiates.  With one parser:
    when it returns true, [any] returns true with the slot that the one
    application of [f] to the caller's slot, the index 0 and the
    parser's result leaves; when it returns false, [any] returns false
    and the slot is what it was, whatever the reducer.  With two parsers,
    the second running on the stream the first left: when the first
    returns true, [f] is applied once to the index 0, the first parser's
    result and a value-initialised second temporary, the second parser
    not being run; when the first returns false and the second true, [f]
    is applied once to the index 1, whatever the first parser left in its
    temporary (the initial value when that parser writes only on
    success) and the second parser's result; when both return false,
    [any] returns false and the slot is what it was, whatever the
    reducer.  A return of true comes only from a parser of the pack that
    returned true. *)
Theorem any_reduces_once :
  (forall (R : Type) (T : rtype) (f : choice_functor R T [])
          (p : parser T) (fuel : nat) (s : pstream) (result : option R),
     (forall s1 t,
        p fuel s (Some (init T)) = Done true s1 (Some t) ->
        any (T := T) (Ts := []) f p fuel s result =
        Done true s1 (f result 0 t))
     /\ (forall s1 r1,
           p fuel s (Some (init T)) = Done false s1 r1 ->
           forall g : choice_functor R T [],
             any (T := T) (Ts := []) g p fuel s result =
             Done false s1 result)
     /\ (forall s' r',
           any (T := T) (Ts := []) f p fuel s result = Done true s' r' ->
           exists r1, p fuel s (Some (init T)) = Done true s' r1))
  /\ (forall (R : Type) (T1 T2 : rtype) (f : choice_functor R T1 [T2])
             (p1 : parser T1) (p2 : parser T2)
             (fuel : nat) (s : pstream) (result : option R),
        (forall s1 t1,
           p1 fuel s (Some (init T1)) = Done true s1 (Some t1) ->
           forall q : parser T2,
             any (T := T1) (Ts := [T2]) f (p1, q) fuel s result =
             Done true s1 (f result 0 (t1, init T2)))
        /\ (forall s1 t1 s2 t2,
              p1 fuel s (Some (init T1)) = Done false s1 (Some t1) ->
              p2 fuel s1 (Some (init T2)) = Done true s2 (Some t2) ->
              any (T := T1) (Ts := [T2]) f (p1, p2) fuel s result =
              Done true s2 (f result 1 (t1, t2))
              /\ (slot_safe p1 -> t1 = init T1))
        /\ (forall s1 r1 s2 r2,
              p1 fuel s (Some (init T1)) = Done false s1 r1 ->
              p2 fuel s1 (Some (init T2)) = Done false s2 r2 ->
              forall g : choice_functor R T1 [T2],
                any (T := T1) (Ts := [T2]) g (p1, p2) fuel s result =
                Done false s2 result)
        /\ (forall s' r',
              any (T := T1) (Ts := [T2]) f (p1, p2) fuel s result =
              Done true s' r' ->
              (exists r1, p1 fuel s (Some (init T1)) = Done true s' r1)
              \/ (exists s1 r1 r2,
                    p1 fuel s (Some (init T1)) = Done false s1 r1
                    /\ p2 fuel s1 (Some (init T2)) = Done true s' r2))).
Proof.
  split.
  - intros R T f p fuel s result.
    unfold any, fmap_choice. cbv zeta.
    cbn [any_parsers tuple_init tuple pack].
    split; [|split].
    + intros s1 t H. rewrite H. reflexivity.
    + intros s1 r1 H g. rewrite H. reflexivity.
    + intros s' r'.
      destruct (p fuel s (Some (init T))) as [[[|] r1] s1| e |];
        intros H; inversion H; subst.
      exists r1. reflexivity.
  - intros R T1 T2 f p1 p2 fuel s result.
    unfold any, fmap_choice. cbv zeta.
    cbn [any_parsers tuple_init tuple pack fst snd].
    split; [|split; [|split]].
    + intros s1 t1 H q. rewrite H. reflexivity.
    + intros s1 t1 s2 t2 H1 H2. split.
      * rewrite H1, H2. reflexivity.
      * intros Hsafe. apply Hsafe in H1. inversion H1. reflexivity.
    + intros s1 r1 s2 r2 H1 H2 g. rewrite H1, H2. reflexivity.
    + intros s' r'.
      destruct (p1 fuel s (Some (init T1))) as [[[|] r1] s1| e |];
        try discriminate.
      * intros H; inversion H; subst. left. exists r1. reflexivity.
      * destruct (p2 fuel s1 (Some (init T2))) as [[[|] r2] s2| e |] eqn:E2;
          intros H; inversion H; subst.
        right. exists s1, r1, r2. split; [reflexivity | exact E2].
Qed.

Lemma any_reduces_once_witness :
  let f : choice_functor (Z * (string * string)) string_t [string_t] :=
    fun _ i ts => Some (i, ts) in
  let plus := accept (is_char "+") in
  let minus := accept (is_char "-") in
  any (T := string_t) (Ts := [string_t]) f (plus, minus) 0%nat
      (pstream_of (file "-1")) None =
    Done true (cursor_after (file "-1") 1) (Some (1, ("", "-")))
  /\ any (T := string_t) (Ts := [string_t]) f (plus, minus) 0%nat
         (pstream_of (file "+1")) None =
       Done true (cursor_after (file "+1") 1) (Some (0, ("+", "")))
  /\ any (T := string_t) (Ts := [string_t]) f (plus, minus) 0%nat
         (pstream_of (file "1")) None =
       Done false (pstream_of (file "1")) None
  /\ slot_safe plus.
Proof.
  cbv zeta.
  destruct any_reduces_once as [_ Htwo].
  pose proof (fun s =>
                Htwo (Z * (string * string))%type string_t string_t
                     (fun _ i ts => Some (i, ts))
                     (accept (is_char "+")) (accept (is_char "-"))
                     0%nat s None) as H.
  split; [|split; [|split]].
  - destruct (H (pstream_of (file "-1"))) as [_ [Hsecond _]].
    exact (proj1 (Hsecond _ _ _ _ eq_refl eq_refl)).
  - destruct (H (pstream_of (file "+1"))) as [Hfirst _].
    exact (Hfirst _ _ eq_refl (accept (is_char "-"))).
  - destruct (H (pstream_of (file "1"))) as [_ [_ [Hnone _]]].
    exact (Hnone _ _ _ _ eq_refl eq_refl (fun _ i ts => Some (i, ts))).
  - apply accept_slot_safe.
Defined.

(** ** Repetition *)

Section Many_facts.





Lemma many_unfold {R : Type} (p : parser R) (k : nat) (s : pstream)
    (result : option R) :
  many p (S k) s result =
  match p k s result with
  | Done true s1 r1 => many p k s1 r1
  | Done false s1 r1 => Done true s1 r1
  | Thrown e => Thrown e
  | Unfinished => Unfinished
  end.
Proof. reflexivity. Qed.

(** At end-of-input [accept(is_eof)] keeps succeeding, and the loop of
    [many] around it is still running whatever fuel it is given. *)
Lemma many_accept_eof_unfinished (fuel : nat) (s : pstream)
    (result : option string) :
  sym s = EOF -> in_ s = [] ->
  many (accept is_eof) fuel s result = Unfinished.
Proof.
  revert s result.
  induction fuel as [|k IH]; intros s result Hs Hin; [reflexivity|].
  rewrite many_unfold. unfold accept at 1, get_sym. rewrite Hs.
  change (negb (test is_eof EOF)) with false. cbv iota.
  apply IH.
  - rewrite next_sym, Hin. reflexivity.
  - rewrite next_in, Hin. reflexivity.
Qed.





End Many_facts.




(** ** Further properties: the predicates *)

Section Predicate_facts.

Lemma to_int_type_inj (c c' : ascii) : to_int_type c = to_int_type c' -> c = c'.
Proof.
  unfold to_int_type. intros H.
  rewrite <- (ascii_N_embedding c), <- (ascii_N_embedding c').
  f_equal. lia.
Qed.

Lemma char_of_int_to_int_type (c : ascii) : char_of_int (to_int_type c) = c.
Proof.
  unfold char_of_int. pose proof (to_int_type_range c) as H.
  rewrite Z.mod_small by lia. unfold to_int_type.
  rewrite N2Z.id. apply ascii_N_embedding.
Qed.

End Predicate_facts.

(** X1.  The predicates form a Boolean algebra on symbols: the complement
    of a disjunction is the conjunction of the complements, a double
    complement is the predicate itself, disjunction is commutative,
    associative and idempotent. *)
Theorem predicate_algebra (p q r : predicate) (c : Z) :
  test (is_not (is_either p q)) c = test (is_not p) c && test (is_not q) c
  /\ test (is_not (is_not p)) c = test p c
  /\ test (is_either p q) c = test (is_either q p) c
  /\ test (is_either (is_either p q) r) c = test (is_either p (is_either q r)) c
  /\ test (is_either p p) c = test p c
  /\ test (is_either p (is_not p)) c = true.
Proof.
  unfold is_not, is_either; cbn [test].
  repeat split.
  - apply negb_orb.
  - apply negb_involutive.
  - apply orb_comm.
  - symmetry. apply orb_assoc.
  - apply orb_diag.
  - apply orb_negb_r.
Qed.

(** X2.  [is_char(c)] holds of the symbol the stream gives for a
    character [c'] exactly when [c'] is [c] and [c] is below 128: with a
    signed [char] a character from 128 up is stored as a negative [k] and
    matches nothing the stream reads.  It holds of end-of-input exactly
    for the character [is_eof] is built from. *)
Theorem is_char_on_stream (c c' : ascii) :
  (test (is_char c) (to_int_type c') = true
   <-> c = c' /\ to_int_type c < 128)
  /\ (test (is_char c) EOF = true <-> c = char_of_int EOF).
Proof.
  unfold is_char, int_of_char; cbn [test].
  pose proof (to_int_type_range c) as Hc.
  pose proof (to_int_type_range c') as Hc'.
  split; split.
  - intros H. apply Z.eqb_eq in H.
    destruct (to_int_type c <? 128) eqn:Hlt.
    + apply Z.ltb_lt in Hlt. split; [apply to_int_type_inj; exact H | exact Hlt].
    + lia.
  - intros [-> Hlt]. apply Z.eqb_eq.
    apply Z.ltb_lt in Hlt. rewrite Hlt. reflexivity.
  - intros H. apply Z.eqb_eq in H. unfold EOF in H.
    destruct (to_int_type c <? 128) eqn:Hlt; [lia|].
    apply to_int_type_inj.
    change (to_int_type (char_of_int EOF)) with 255. lia.
  - intros ->. reflexivity.
Qed.

(** ** Further properties: the cursor *)

Section Cursor_facts.

Lemma sym_at_nth_error (f : streambuf) (k : nat) :
  sym_at f k =
  match nth_error f k with
  | Some c => to_int_type c
  | None => EOF
  end.
Proof.
  unfold sym_at. revert f.
  induction k as [|k IH]; intros [|c r]; try reflexivity.
  exact (IH r).
Qed.

Lemma sym_at_eof_iff (f : streambuf) (k : nat) :
  sym_at f k = EOF <-> (List.length f <= k)%nat.
Proof.
  rewrite sym_at_nth_error, <- nth_error_None.
  destruct (nth_error f k) as [c|].
  - split; [intros H; exfalso; exact (to_int_type_not_EOF c H) | discriminate].
  - split; reflexivity.
Qed.

Lemma cursor_after_add (f : streambuf) (k n : nat) :
  Nat.iter n next (cursor_after f k) = cursor_after f (k + n).
Proof.
  unfold cursor_after. rewrite Nat.add_comm.
  symmetry. apply Nat.iter_add.
Qed.

Lemma cursor_after_next (f : streambuf) (k : nat) :
  next (cursor_after f k) = cursor_after f (k + 1).
Proof.
  rewrite Nat.add_1_r. reflexivity.
Qed.

End Cursor_facts.

(** X3.  The byte count a cursor reports is the number of advances made,
    whether or not they went past the end of the file, as long as it does
    not overflow. *)
Theorem count_is_advances (f : streambuf) (k : nat) :
  Z.of_nat k <= INT_MAX -> get_count (cursor_after f k) = Z.of_nat k.
Proof.
  unfold get_count.
  induction k as [|k IH]; intros Hk.
  - unfold cursor_after, pstream_of. destruct (sbumpc f). reflexivity.
  - rewrite cursor_after_S, next_count, IH by lia.
    rewrite incr_eq; unfold INT_MIN, INT_MAX in *; lia.
Qed.

Lemma count_is_advances_witness :
  Z.of_nat 5 <= INT_MAX /\ get_count (cursor_after (file "ab") 5) = 5.
Proof.
  assert (H : Z.of_nat 5 <= INT_MAX) by (vm_compute; discriminate).
  split; [exact H | exact (count_is_advances (file "ab") 5 H)].
Defined.

(** X4.  The cursor hands out the characters of the file once each and in
    order, then end-of-input for ever: after [k] advances the lookahead is
    the character at position [k], as an [unsigned char] value, or
    end-of-input when the file has no such position; it is end-of-input
    exactly when [k] is at least the length of the file; and the number of
    symbols still to consume is the length of the file less [k]. *)
Theorem lookahead_walks_file (f : streambuf) (k : nat) :
  get_sym (cursor_after f k) =
    match nth_error f k with
    | Some c => to_int_type c
    | None => EOF
    end
  /\ (get_sym (cursor_after f k) = EOF <-> (List.length f <= k)%nat)
  /\ (get_sym (cursor_after f k) = EOF \/ 0 <= get_sym (cursor_after f k) < 256)
  /\ pending (cursor_after f k) = (List.length f - k)%nat.
Proof.
  unfold get_sym.
  destruct (cursor_after_buffer f k) as [Hin Hsym].
  split; [rewrite Hsym; apply sym_at_nth_error|].
  split; [rewrite Hsym; apply sym_at_eof_iff|].
  split.
  - rewrite Hsym, sym_at_nth_error.
    destruct (nth_error f k) as [c|]; [right; apply to_int_type_range | left; reflexivity].
  - unfold pending. rewrite Hin, Hsym, length_skipn.
    destruct (sym_at f k =? EOF) eqn:E.
    + apply Z.eqb_eq, sym_at_eof_iff in E. lia.
    + apply Z.eqb_neq in E.
      assert (~ (List.length f <= k)%nat) by (rewrite <- sym_at_eof_iff; exact E).
      lia.
Qed.

(** ** Further properties: how the combinators compose *)

(** X5.  [succ] is a unit of [&&] on both sides and [fail] a unit of [||]
    on both sides; [fail && p] never runs [p] and [succ || p] never runs
    [p]; [p && fail] returns false with the stream and slot as [p] left
    them. *)
Theorem succ_fail_laws {R : Type} (p : parser R) (fuel : nat) (s : pstream)
    (result : option R) :
  sequence succ p fuel s result = p fuel s result
  /\ sequence p succ fuel s result = p fuel s result
  /\ choice fail p fuel s result = p fuel s result
  /\ choice p fail fuel s result = p fuel s result
  /\ sequence fail p fuel s result = Done false s result
  /\ choice succ p fuel s result = Done true s result
  /\ (forall b s1 r1, p fuel s result = Done b s1 r1 ->
        sequence p fail fuel s result = Done false s1 r1).
Proof.
  unfold sequence, choice, succ, fail.
  repeat split; try reflexivity.
  - destruct (p fuel s result) as [[[|] r1] s1| e |]; reflexivity.
  - destruct (p fuel s result) as [[[|] r1] s1| e |]; reflexivity.
  - intros b s1 r1 H. rewrite H. destruct b; reflexivity.
Qed.

(** X6.  [&&] and [||] are associative: either grouping of three parsers
    gives the same outcome on every stream and slot. *)
Theorem sequence_choice_associative {R : Type} (p q r : parser R)
    (fuel : nat) (s : pstream) (result : option R) :
  sequence (sequence p q) r fuel s result =
    sequence p (sequence q r) fuel s result
  /\ choice (choice p q) r fuel s result =
       choice p (choice q r) fuel s result.
Proof.
  unfold sequence, choice. split.
  - destruct (p fuel s result) as [[[|] r1] s1| e |]; try reflexivity.
  - destruct (p fuel s result) as [[[|] r1] s1| e |]; try reflexivity.
Qed.

(** X7.  [some(p)] returns false exactly when its first run of [p] does,
    and then with the stream and slot of that run; when it returns true
    [p] has returned true on the stream and slot [some(p)] was called
    with. *)
Theorem some_fails_with_first {R : Type} (p : parser R) (fuel : nat)
    (s : pstream) (result : option R) :
  (forall s1 r1, some p fuel s result = Done false s1 r1
                 <-> p fuel s result = Done false s1 r1)
  /\ (forall s1 r1, some p fuel s result = Done true s1 r1 ->
        exists s0 r0, p fuel s result = Done true s0 r0).
Proof.
  unfold some, sequence. split.
  - intros s1 r1.
    destruct (p fuel s result) as [[[|] r0] s0| e |]; split; intros H;
      try discriminate; try exact H.
    exfalso. exact (many_never_false p fuel s0 r0 s1 r1 H).
  - intros s1 r1.
    destruct (p fuel s result) as [[[|] r0] s0| e |]; intros H;
      try discriminate.
    exists s0, r0. reflexivity.
Qed.

Section Repetition_facts.

Lemma option_no_false {R : Type} (p : parser R) :
  never_false (Convenience.option p).
Proof.
  intros fuel s result s1 r1. unfold Convenience.option, choice, succ.
  destruct (p fuel s result) as [[[|] r0] s0| e |]; discriminate.
Qed.

Lemma many_failing_run {R : Type} (p : parser R) (fuel : nat)
    (s : pstream) (result : option R) (b : bool) (s1 : pstream)
    (r1 : option R) :
  many p fuel s result = Done b s1 r1 ->
  exists k s0 r0, (k < fuel)%nat /\ p k s0 r0 = Done false s1 r1.
Proof.
  revert s result.
  induction fuel as [|k IH]; intros s result; [discriminate|].
  rewrite many_unfold.
  destruct (p k s result) as [[[|] r0] s0| e |] eqn:E; try discriminate.
  - intros H. destruct (IH s0 r0 H) as [k' [s' [r' [Hk Hp]]]].
    exists k', s', r'. split; [lia | exact Hp].
  - intros H. inversion H; subst.
    exists k, s, result. split; [lia | exact E].
Qed.

End Repetition_facts.

(** X8.  [option(p)] has no return of false: whenever [p] returns, true
    or false, [option(p)] returns true with the stream and the slot as
    [p] left them, so that what a failed [p] consumed and wrote stays
    consumed and written. *)
Theorem option_never_fails {R : Type} (p : parser R) (fuel : nat)
    (s : pstream) (result : option R) :
  (forall b s1 r1, p fuel s result = Done b s1 r1 ->
                   Convenience.option p fuel s result = Done true s1 r1)
  /\ (forall s1 r1, Convenience.option p fuel s result <> Done false s1 r1).
Proof.
  split.
  - unfold Convenience.option, choice, succ.
    intros b s1 r1 H. rewrite H. destruct b; reflexivity.
  - intros s1 r1. apply option_no_false.
Qed.

Lemma option_never_fails_witness :
  let p := sequence (accept (is_char "a")) (accept (is_char "b")) in
  p 0%nat (pstream_of (file "ax")) (Some "") =
    Done false (cursor_after (file "ax") 1) (Some "a")
  /\ Convenience.option p 0%nat (pstream_of (file "ax")) (Some "") =
       Done true (cursor_after (file "ax") 1) (Some "a").
Proof.
  cbv zeta. split; [reflexivity|].
  exact (proj1 (option_never_fails
                  (sequence (accept (is_char "a")) (accept (is_char "b")))
                  0%nat (pstream_of (file "ax")) (Some "")) _ _ _ eq_refl).
Defined.

(** ** Further properties: repetition *)

(** X9.  [many(p)] returns only after a run of [p] that returned false,
    and what it hands back is true together with the stream and the slot
    exactly as that last run left them. *)
Theorem many_stops_at_failure {R : Type} (p : parser R) (fuel : nat)
    (s : pstream) (result : option R) (b : bool) (s1 : pstream)
    (r1 : option R) :
  many p fuel s result = Done b s1 r1 ->
  b = true
  /\ exists k s0 r0, (k < fuel)%nat /\ p k s0 r0 = Done false s1 r1.
Proof.
  intros H. split.
  - destruct b; [reflexivity|].
    exfalso. exact (many_never_false p fuel s result s1 r1 H).
  - exact (many_failing_run p fuel s result b s1 r1 H).
Qed.

Lemma many_stops_at_failure_witness :
  let p := sequence (accept (is_char "a")) (accept (is_char "b")) in
  many p 2%nat (pstream_of (file "abax")) (Some "") =
    Done true (cursor_after (file "abax") 3) (Some "aba")
  /\ exists k s0 r0,
       (k < 2)%nat
       /\ p k s0 r0 = Done false (cursor_after (file "abax") 3) (Some "aba").
Proof.
  cbv zeta. split; [reflexivity|].
  exact (proj2 (many_stops_at_failure
                  (sequence (accept (is_char "a")) (accept (is_char "b")))
                  2%nat (pstream_of (file "abax")) (Some "") true
                  (cursor_after (file "abax") 3) (Some "aba") eq_refl)).
Defined.

(** X10.  Around a parser that has no return of false the loop of [many]
    never returns: it runs for ever or is left by a throw.  [succ],
    [option(p)], [many(p)] and [expect(pred)] are such parsers. *)
Theorem many_of_never_false_never_returns {R : Type} (p : parser R) :
  never_false (@succ R)
  /\ never_false (Convenience.option p)
  /\ never_false (many p)
  /\ (forall pred, never_false (expect pred))
  /\ (never_false p ->
      forall fuel s result b s1 r1, many p fuel s result <> Done b s1 r1).
Proof.
  split; [intros fuel s result s1 r1; discriminate|].
  split; [apply option_no_false|].
  split; [intros fuel s result s1 r1; apply many_never_false|].
  split.
  - intros pred fuel s result s1 r1. unfold expect.
    destruct (negb (test pred (get_sym s))); discriminate.
  - intros Hnf fuel s result b s1 r1 H.
    destruct (many_failing_run p fuel s result b s1 r1 H)
      as [k [s0 [r0 [_ Hp]]]].
    exact (Hnf k s0 r0 s1 r1 Hp).
Qed.

Lemma many_of_never_false_never_returns_witness :
  never_false (@succ string)
  /\ many (@succ string) 100%nat (pstream_of (file "a")) None = Unfinished
  /\ forall b s1 r1,
       many (@succ string) 100%nat (pstream_of (file "a")) None <>
       Done b s1 r1.
Proof.
  pose proof (many_of_never_false_never_returns (@succ string))
    as [Hsucc [_ [_ [_ Hmany]]]].
  split; [exact Hsucc|]. split; [reflexivity|].
  exact (Hmany Hsucc 100%nat (pstream_of (file "a")) None).
Defined.

(** ** Further properties: what a recogniser writes *)

Section Text_facts.

Lemma append_nil_r (t : string) : (t ++ "")%string = t.
Proof.
  induction t as [|c t IH]; simpl; [reflexivity | rewrite IH; reflexivity].
Qed.

Lemma append_assoc (t u v : string) :
  ((t ++ u) ++ v)%string = (t ++ (u ++ v))%string.
Proof.
  induction t as [|c t IH]; simpl; [reflexivity | rewrite IH; reflexivity].
Qed.

Lemma text_of_app (l1 l2 : list Z) :
  text_of (l1 ++ l2) = (text_of l1 ++ text_of l2)%string.
Proof.
  unfold text_of.
  induction l1 as [|c l1 IH]; simpl; [reflexivity | rewrite IH; reflexivity].
Qed.

Lemma symbols_app (f : streambuf) (k n1 n2 : nat) :
  symbols f k (n1 + n2) = symbols f k n1 ++ symbols f (k + n1) n2.
Proof.
  unfold symbols. rewrite seq_app, map_app. reflexivity.
Qed.

Lemma appended_0 (f : streambuf) (k : nat) (result : option string) :
  appended f k 0 result = result.
Proof.
  destruct result as [t|]; [|reflexivity].
  unfold appended, symbols, text_of. simpl. rewrite append_nil_r. reflexivity.
Qed.

Lemma appended_1 (f : streambuf) (k : nat) (result : option string) :
  appended f k 1 result =
  option_map (fun r => push_back r (sym_at f k)) result.
Proof. reflexivity. Qed.

Lemma appended_add (f : streambuf) (k n1 n2 : nat) (result : option string) :
  appended f (k + n1) n2 (appended f k n1 result) =
  appended f k (n1 + n2) result.
Proof.
  destruct result as [t|]; [|reflexivity].
  unfold appended. simpl.
  rewrite symbols_app, text_of_app, append_assoc. reflexivity.
Qed.

Lemma symbols_cons (c : ascii) (f : streambuf) (k n : nat) :
  symbols (c :: f) (S k) n = symbols f k n.
Proof.
  unfold symbols. rewrite <- seq_shift, map_map. reflexivity.
Qed.

(** Inside the file the symbols give back its characters. *)
Lemma text_of_symbols (f : streambuf) (k n : nat) :
  (k + n <= List.length f)%nat ->
  text_of (symbols f k n) = string_of_list_ascii (firstn n (skipn k f)).
Proof.
  revert f n.
  induction k as [|k IHk]; intros f n H.
  - revert f H. induction n as [|n IHn]; intros f H; [reflexivity|].
    destruct f as [|c f]; [simpl in H; lia|].
    change (symbols (c :: f) 0 (S n))
      with (sym_at (c :: f) 0 :: symbols (c :: f) 1 n).
    rewrite symbols_cons.
    unfold text_of in *. simpl in H. cbn [map string_of_list_ascii skipn firstn].
    change (sym_at (c :: f) 0) with (to_int_type c).
    rewrite char_of_int_to_int_type.
    f_equal. apply (IHn f). simpl. lia.
  - destruct f as [|c f]; [simpl in H; lia|].
    rewrite symbols_cons. simpl in H. apply IHk. lia.
Qed.

Lemma transcribes_step (p q : parser string) :
  transcribes p -> transcribes q ->
  forall fuel f k result b0 s0 r0 b s1 r1,
    p fuel (cursor_after f k) result = Done b0 s0 r0 ->
    q fuel s0 r0 = Done b s1 r1 ->
    exists n, s1 = cursor_after f (k + n) /\ r1 = appended f k n result.
Proof.
  intros Hp Hq fuel f k result b0 s0 r0 b s1 r1 E1 E2.
  destruct (Hp _ _ _ _ _ _ _ E1) as [n1 [-> ->]].
  destruct (Hq _ _ _ _ _ _ _ E2) as [n2 [-> ->]].
  exists (n1 + n2)%nat. split.
  - rewrite Nat.add_assoc. reflexivity.
  - apply appended_add.
Qed.

Lemma accept_transcribes (pred : predicate) : transcribes (accept pred).
Proof.
  intros fuel f k result b s1 r1. unfold accept, get_sym.
  destruct (cursor_after_buffer f k) as [_ Hsym]. rewrite Hsym.
  destruct (negb (test pred (sym_at f k))); intros H; inversion H; subst.
  - exists 0%nat. rewrite Nat.add_0_r, appended_0. split; reflexivity.
  - exists 1%nat. rewrite cursor_after_next, appended_1. split; reflexivity.
Qed.

Lemma expect_transcribes (pred : predicate) : transcribes (expect pred).
Proof.
  intros fuel f k result b s1 r1. unfold expect, get_sym.
  destruct (cursor_after_buffer f k) as [_ Hsym]. rewrite Hsym.
  destruct (negb (test pred (sym_at f k))); intros H; inversion H; subst.
  exists 1%nat. rewrite cursor_after_next, appended_1. split; reflexivity.
Qed.

Lemma many_transcribes (p : parser string) :
  transcribes p -> transcribes (many p).
Proof.
  intros Hp fuel.
  induction fuel as [|j IH]; intros f k result b s1 r1; [discriminate|].
  rewrite many_unfold.
  destruct (p j (cursor_after f k) result) as [[[|] r0] s0| e |] eqn:E;
    try discriminate.
  - intros H.
    destruct (Hp _ _ _ _ _ _ _ E) as [n1 [-> ->]].
    destruct (IH _ _ _ _ _ _ H) as [n2 [-> ->]].
    exists (n1 + n2)%nat. split.
    + rewrite Nat.add_assoc. reflexivity.
    + apply appended_add.
  - intros H. inversion H; subst.
    exact (Hp _ _ _ _ _ _ _ E).
Qed.

End Text_facts.

(** X11.  A parser put together from [accept], [expect], [succ], [fail],
    [||], [&&] and [many] keeps the slot in step with the cursor: whenever
    it returns, true or false, on a cursor over a file, it has advanced
    over some [n] symbols and the slot is what it was followed by just
    these symbols, each narrowed to [char]; nothing already in the slot is
    changed or removed.  As long as the cursor has stayed inside the file
    the appended text is the [n] characters of the file it has passed. *)
Theorem recogniser_transcribes (p : parser string) :
  recogniser p ->
  forall fuel f k result b s1 r1,
    p fuel (cursor_after f k) result = Done b s1 r1 ->
    exists n,
      s1 = cursor_after f (k + n)
      /\ r1 = appended f k n result
      /\ ((k + n <= List.length f)%nat ->
          text_of (symbols f k n) =
          string_of_list_ascii (firstn n (skipn k f))).
Proof.
  intros Hrec.
  assert (Ht : transcribes p).
  { induction Hrec as [pred | pred | | | p q _ IHp _ IHq
                      | p q _ IHp _ IHq | p _ IHp].
    - apply accept_transcribes.
    - apply expect_transcribes.
    - intros fuel f k result b s1 r1 H. inversion H; subst.
      exists 0%nat. rewrite Nat.add_0_r, appended_0. split; reflexivity.
    - intros fuel f k result b s1 r1 H. inversion H; subst.
      exists 0%nat. rewrite Nat.add_0_r, appended_0. split; reflexivity.
    - intros fuel f k result b s1 r1. unfold choice.
      destruct (p fuel (cursor_after f k) result) as [[[|] r0] s0| e |] eqn:E;
        try discriminate; intros H.
      + inversion H; subst. exact (IHp _ _ _ _ _ _ _ E).
      + exact (transcribes_step p q IHp IHq _ _ _ _ _ _ _ _ _ _ E H).
    - intros fuel f k result b s1 r1. unfold sequence.
      destruct (p fuel (cursor_after f k) result) as [[[|] r0] s0| e |] eqn:E;
        try discriminate; intros H.
      + exact (transcribes_step p q IHp IHq _ _ _ _ _ _ _ _ _ _ E H).
      + inversion H; subst. exact (IHp _ _ _ _ _ _ _ E).
    - apply many_transcribes. exact IHp. }
  intros fuel f k result b s1 r1 H.
  destruct (Ht _ _ _ _ _ _ _ H) as [n [Hs Hr]].
  exists n. split; [exact Hs|]. split; [exact Hr|].
  apply text_of_symbols.
Qed.

Lemma recogniser_transcribes_witness :
  let p := some (accept is_digit) in
  recogniser p
  /\ p 4%nat (pstream_of (file "123abc")) (Some "n=") =
       Done true (cursor_after (file "123abc") 3) (Some "n=123")
  /\ exists n,
       cursor_after (file "123abc") 3 = cursor_after (file "123abc") (0 + n)
       /\ Some "n=123" = appended (file "123abc") 0 n (Some "n=")
       /\ ((0 + n <= List.length (file "123abc"))%nat ->
           text_of (symbols (file "123abc") 0 n) =
           string_of_list_ascii (firstn n (skipn 0 (file "123abc")))).
Proof.
  cbv zeta.
  assert (Hrec : recogniser (some (accept is_digit))).
  { unfold some. apply rec_sequence; [|apply rec_many]; apply rec_accept. }
  split; [exact Hrec|]. split; [reflexivity|].
  exact (recogniser_transcribes (some (accept is_digit)) Hrec 4%nat
           (file "123abc") 0%nat (Some "n=") true
           (cursor_after (file "123abc") 3) (Some "n=123") eq_refl).
Defined.

(** ** Further properties: the slot has no say in what is consumed *)

Section Blind_facts.

Lemma verdict_inv {R : Type} (o : outcome (bool * option R)) (b : bool)
    (s : pstream) :
  verdict o = Returned b s -> exists r, o = Done b s r.
Proof.
  destruct o as [[b0 r0] s0| e |]; intros H; inversion H; subst.
  exists r0. reflexivity.
Qed.

Lemma many_blind (p : parser string) :
  (forall fuel s r r', verdict (p fuel s r) = verdict (p fuel s r')) ->
  forall fuel s r r', verdict (many p fuel s r) = verdict (many p fuel s r').
Proof.
  intros Hp fuel.
  induction fuel as [|j IH]; intros s r r'; [reflexivity|].
  rewrite !many_unfold.
  specialize (Hp j s r r').
  destruct (p j s r) as [[[|] r0] s0| e |];
    destruct (p j s r') as [[[|] r0'] s0'| e' |];
    simpl in Hp; inversion Hp; subst; try reflexivity.
  apply IH.
Qed.

Lemma recogniser_blind (p : parser string) :
  recogniser p ->
  forall fuel s r r', verdict (p fuel s r) = verdict (p fuel s r').
Proof.
  intros Hrec.
  induction Hrec as [pred | pred | | | p q _ IHp _ IHq
                    | p q _ IHp _ IHq | p _ IHp]; intros fuel s r r'.
  - unfold accept. destruct (negb (test pred (get_sym s))); reflexivity.
  - unfold expect. destruct (negb (test pred (get_sym s))); reflexivity.
  - reflexivity.
  - reflexivity.
  - unfold choice. specialize (IHp fuel s r r').
    destruct (p fuel s r) as [[[|] r0] s0| e |];
      destruct (p fuel s r') as [[[|] r0'] s0'| e' |];
      simpl in IHp; inversion IHp; subst; try reflexivity.
    apply IHq.
  - unfold sequence. specialize (IHp fuel s r r').
    destruct (p fuel s r) as [[[|] r0] s0| e |];
      destruct (p fuel s r') as [[[|] r0'] s0'| e' |];
      simpl in IHp; inversion IHp; subst; try reflexivity.
    apply IHq.
  - apply many_blind. exact IHp.
Qed.

Lemma discard_slot_any {T R : Type} (p : parser T) (fuel : nat)
    (s : pstream) (result : option R) (b : bool) (s1 : pstream)
    (r1 : option R) :
  @discard T R p fuel s result = Done b s1 r1 -> r1 = result.
Proof.
  unfold discard.
  destruct (p fuel s None) as [[b0 r0] s0| e |]; intros H; inversion H.
  reflexivity.
Qed.

End Blind_facts.

(** X12.  What a recogniser consumes, whether it returns true or false and
    what it throws do not depend on the slot it is given, null or not and
    whatever it holds; so [discard(p)] of a recogniser [p] leaves the
    stream and gives the verdict that [p] itself would, while the
    caller's slot comes back as it was. *)
Theorem discard_consumes_alike (p : parser string) :
  recogniser p ->
  forall fuel s (r r' : option string) (R : Type) (d : option R),
    verdict (p fuel s r) = verdict (p fuel s r')
    /\ verdict (@discard string R p fuel s d) = verdict (p fuel s r)
    /\ (forall b s1 r1,
          @discard string R p fuel s d = Done b s1 r1 -> r1 = d).
Proof.
  intros Hrec fuel s r r' R d.
  split; [apply recogniser_blind; exact Hrec|].
  split.
  - rewrite (recogniser_blind p Hrec fuel s r None).
    unfold discard. destruct (p fuel s None) as [[b r0] s0| e |]; reflexivity.
  - intros b s1 r1. apply discard_slot_any.
Qed.

Lemma discard_consumes_alike_witness :
  let p := many (accept is_space) in
  recogniser p
  /\ verdict (@discard string Z p 3%nat (pstream_of (file "  7")) (Some 5)) =
       verdict (p 3%nat (pstream_of (file "  7")) (Some "x"))
  /\ @discard string Z p 3%nat (pstream_of (file "  7")) (Some 5) =
       Done true (cursor_after (file "  7") 2) (Some 5).
Proof.
  cbv zeta.
  assert (Hrec : recogniser (many (accept is_space)))
    by (apply rec_many, rec_accept).
  split; [exact Hrec|]. split; [|reflexivity].
  exact (proj1 (proj2 (discard_consumes_alike (many (accept is_space)) Hrec
                         3%nat (pstream_of (file "  7")) (Some "x") None
                         Z (Some 5)))).
Defined.

(** ** Further properties: runs of one predicate *)

Section Run_facts.

Lemma skipn_cons_inv (f : streambuf) (k : nat) (c : ascii) (l : list ascii) :
  skipn k f = c :: l -> sym_at f k = to_int_type c /\ skipn (S k) f = l.
Proof.
  intros H. split.
  - rewrite <- sgetc_skipn, H. reflexivity.
  - rewrite <- snextc_skipn, H. reflexivity.
Qed.

Lemma skipn_nil_inv (f : streambuf) (k : nat) :
  skipn k f = [] -> sym_at f k = EOF.
Proof.
  intros H. rewrite <- sgetc_skipn, H. reflexivity.
Qed.

Lemma push_back_char (t : string) (c : ascii) (l : list ascii) :
  (push_back t (to_int_type c) ++ string_of_list_ascii l)%string =
  (t ++ string_of_list_ascii (c :: l))%string.
Proof.
  unfold push_back. rewrite char_of_int_to_int_type, append_assoc.
  reflexivity.
Qed.

(** The loop of [many(accept(pred))] from position [k], with fuel for one
    turn more than the run is long. *)
Lemma many_accept_run (pred : predicate) (f : streambuf) :
  test pred EOF = false ->
  forall (l : list ascii) (k : nat) (result : option string) (m : nat),
    skipn k f = l ->
    let run := take_while (fun c => test pred (to_int_type c)) l in
    (List.length run < m)%nat ->
    many (accept pred) m (cursor_after f k) result =
    Done true (cursor_after f (k + List.length run))
         (option_map (fun t => (t ++ string_of_list_ascii run)%string) result).
Proof.
  intros Heof l.
  induction l as [|c l IH]; intros k result m Hl; cbv zeta; intros Hm;
    (destruct m as [|m]; [simpl in Hm; lia|]);
    rewrite many_unfold; unfold accept at 1, get_sym;
    destruct (cursor_after_buffer f k) as [_ Hsym]; rewrite Hsym.
  - rewrite (skipn_nil_inv f k Hl), Heof. cbn [negb take_while List.length].
    rewrite Nat.add_0_r. f_equal. f_equal.
    destruct result as [t|]; [|reflexivity].
    simpl. rewrite append_nil_r. reflexivity.
  - destruct (skipn_cons_inv f k c l Hl) as [Hc Hrest]. rewrite Hc.
    cbn [take_while].
    destruct (test pred (to_int_type c)) eqn:Ht; cbn [negb].
    + cbn [take_while] in Hm. rewrite Ht in Hm.
      cbn [List.length] in Hm |- *.
      rewrite cursor_after_next.
      rewrite (IH (k + 1)%nat _ m); [| rewrite Nat.add_1_r; exact Hrest | lia].
      replace (k + 1 + List.length
                 (take_while (fun c0 => test pred (to_int_type c0)) l))%nat
        with (k + S (List.length
                 (take_while (fun c0 => test pred (to_int_type c0)) l)))%nat
        by lia.
      f_equal. f_equal.
      destruct result as [t|]; [|reflexivity].
      simpl. f_equal. apply push_back_char.
    + cbn [List.length]. rewrite Nat.add_0_r. f_equal. f_equal.
      destruct result as [t|]; [|reflexivity].
      simpl. rewrite append_nil_r. reflexivity.
Qed.

(** The same loop around [expect(pred)]: it is left by the throw at the
    first symbol [pred] rejects. *)
Lemma many_expect_run (pred : predicate) (f : streambuf) :
  test pred EOF = false ->
  forall (l : list ascii) (k : nat) (result : option string) (m : nat),
    skipn k f = l ->
    let run := take_while (fun c => test pred (to_int_type c)) l in
    (List.length run < m)%nat ->
    many (expect pred) m (cursor_after f k) result =
    Thrown (error (cursor_after f (k + List.length run)) "expected"
                  (name pred)).
Proof.
  intros Heof l.
  induction l as [|c l IH]; intros k result m Hl; cbv zeta; intros Hm;
    (destruct m as [|m]; [simpl in Hm; lia|]);
    rewrite many_unfold; unfold expect at 1, get_sym;
    destruct (cursor_after_buffer f k) as [_ Hsym]; rewrite Hsym.
  - rewrite (skipn_nil_inv f k Hl), Heof. cbn [negb take_while List.length].
    rewrite Nat.add_0_r. reflexivity.
  - destruct (skipn_cons_inv f k c l Hl) as [Hc Hrest]. rewrite Hc.
    cbn [take_while].
    destruct (test pred (to_int_type c)) eqn:Ht; cbn [negb].
    + cbn [take_while] in Hm. rewrite Ht in Hm.
      cbn [List.length] in Hm |- *.
      rewrite cursor_after_next.
      rewrite (IH (k + 1)%nat _ m); [| rewrite Nat.add_1_r; exact Hrest | lia].
      replace (k + 1 + List.length
                 (take_while (fun c0 => test pred (to_int_type c0)) l))%nat
        with (k + S (List.length
                 (take_while (fun c0 => test pred (to_int_type c0)) l)))%nat
        by lia.
      reflexivity.
    + cbn [List.length]. rewrite Nat.add_0_r. reflexivity.
Qed.

End Run_facts.

(** X13.  For a predicate that is false of end-of-input, [many(accept(pred))]
    on a cursor at position [k] of a file ends, returns true, and has
    consumed exactly the longest run of characters from position [k] on
    that all satisfy [pred]: the cursor stands behind that run and, the
    slot being non-null, the run is what has been appended to it. *)
Theorem many_accept_longest_run (pred : predicate) (f : streambuf) (k : nat)
    (t : string) :
  test pred EOF = false ->
  let run := take_while (fun c => test pred (to_int_type c)) (skipn k f) in
  settles (many (accept pred)) (cursor_after f k) (Some t)
          (Done true (cursor_after f (k + List.length run))
                (Some (t ++ string_of_list_ascii run)%string)).
Proof.
  intros Heof. cbv zeta. split; [discriminate|].
  exists (S (List.length
               (take_while (fun c => test pred (to_int_type c)) (skipn k f)))).
  intros m Hm.
  exact (many_accept_run pred f Heof (skipn k f) k (Some t) m eq_refl Hm).
Qed.

Lemma many_accept_longest_run_witness :
  test is_digit EOF = false
  /\ settles (many (accept is_digit)) (cursor_after (file "ab123c") 2)
             (Some "ab")
             (Done true (cursor_after (file "ab123c") 5) (Some "ab123")).
Proof.
  split; [reflexivity|].
  exact (many_accept_longest_run is_digit (file "ab123c") 2 "ab" eq_refl).
Defined.

(** X14.  For a predicate that is false of end-of-input, [many(expect(pred))]
    never returns: on a cursor at position [k] of a file it consumes the
    longest run of characters satisfying [pred] and then throws the parse
    error of [expect] at the symbol behind that run, end-of-input
    included. *)
Theorem many_expect_throws (pred : predicate) (f : streambuf) (k : nat)
    (result : option string) :
  test pred EOF = false ->
  let run := take_while (fun c => test pred (to_int_type c)) (skipn k f) in
  let at_ := cursor_after f (k + List.length run) in
  settles (many (expect pred)) (cursor_after f k) result
          (Thrown (mk_parse_error "expected" (get_row at_) (get_col at_)
                                  (name pred) (get_sym at_)))
  /\ test pred (get_sym at_) = false.
Proof.
  intros Heof. cbv zeta. split.
  - split; [discriminate|].
    exists (S (List.length
               (take_while (fun c => test pred (to_int_type c)) (skipn k f)))).
    intros m Hm.
    exact (many_expect_run pred f Heof (skipn k f) k result m eq_refl Hm).
  - unfold get_sym.
    destruct (cursor_after_buffer f
                (k + List.length
                   (take_while (fun c => test pred (to_int_type c))
                               (skipn k f)))) as [_ Hsym].
    rewrite Hsym, <- sgetc_skipn.
    rewrite Nat.add_comm, <- skipn_skipn.
    generalize (skipn k f). intros l.
    induction l as [|c l IH]; [exact Heof|].
    cbn [take_while].
    destruct (test pred (to_int_type c)) eqn:Ht; [exact IH | exact Ht].
Qed.

Lemma many_expect_throws_witness :
  test is_digit EOF = false
  /\ settles (many (expect is_digit)) (pstream_of (file "12")) (Some "")
             (Thrown (mk_parse_error "expected" 1 2 "digit" EOF)).
Proof.
  split; [reflexivity|].
  exact (proj1 (many_expect_throws is_digit (file "12") 0 (Some "") eq_refl)).
Defined.

(** ** Further properties: the reducer combinators *)

(** X24.  On the packs the header instantiates [all] reduces once and
    with the results of its parsers.  With one parser: when it returns
    true, [all] returns true with the slot that the one application of
    [f] to the caller's slot and the parser's result leaves; when it
    returns false, [all] returns false, on the stream as the parser left
    it, and the slot is what it was, whatever the reducer.  With two
    parsers, the second running on the stream the first left: when both
    return true, [f] is applied once to the caller's slot and the two
    results; when the first returns false, [all] returns false whatever
    the second parser and the reducer are; when the first returns true
    and the second false, [all] returns false on the stream as the second
    left it.  A return of true comes only from all parsers having
    returned true. *)
Theorem all_of_one_or_two :
  (forall (R : Type) (T : rtype) (f : sequence_functor R T [])
          (p : parser T) (fuel : nat) (s : pstream) (result : option R),
     (forall s1 t,
        p fuel s (Some (init T)) = Done true s1 (Some t) ->
        all (T := T) (Ts := []) f p fuel s result = Done true s1 (f result t))
     /\ (forall s1 r1,
           p fuel s (Some (init T)) = Done false s1 r1 ->
           forall g : sequence_functor R T [],
             all (T := T) (Ts := []) g p fuel s result =
             Done false s1 result)
     /\ (forall s' r',
           all (T := T) (Ts := []) f p fuel s result = Done true s' r' ->
           exists r1, p fuel s (Some (init T)) = Done true s' r1))
  /\ (forall (R : Type) (T1 T2 : rtype) (f : sequence_functor R T1 [T2])
             (p1 : parser T1) (p2 : parser T2)
             (fuel : nat) (s : pstream) (result : option R),
        (forall s1 t1 s2 t2,
           p1 fuel s (Some (init T1)) = Done true s1 (Some t1) ->
           p2 fuel s1 (Some (init T2)) = Done true s2 (Some t2) ->
           all (T := T1) (Ts := [T2]) f (p1, p2) fuel s result =
           Done true s2 (f result (t1, t2)))
        /\ (forall s1 r1,
              p1 fuel s (Some (init T1)) = Done false s1 r1 ->
              forall (g : sequence_functor R T1 [T2]) (q : parser T2),
                all (T := T1) (Ts := [T2]) g (p1, q) fuel s result =
                Done false s1 result)
        /\ (forall s1 r1 s2 r2,
              p1 fuel s (Some (init T1)) = Done true s1 r1 ->
              p2 fuel s1 (Some (init T2)) = Done false s2 r2 ->
              forall g : sequence_functor R T1 [T2],
                all (T := T1) (Ts := [T2]) g (p1, p2) fuel s result =
                Done false s2 result)
        /\ (forall s' r',
              all (T := T1) (Ts := [T2]) f (p1, p2) fuel s result =
              Done true s' r' ->
              exists s1 r1 r2,
                p1 fuel s (Some (init T1)) = Done true s1 r1
                /\ p2 fuel s1 (Some (init T2)) = Done true s' r2)).
Proof.
  split.
  - intros R T f p fuel s result.
    unfold all, fmap_sequence. cbv zeta.
    cbn [all_parsers tuple_init tuple pack].
    split; [|split].
    + intros s1 t H. rewrite H. reflexivity.
    + intros s1 r1 H g. rewrite H. reflexivity.
    + intros s' r'.
      destruct (p fuel s (Some (init T))) as [[[|] r1] s1| e |];
        intros H; inversion H; subst.
      exists r1. reflexivity.
  - intros R T1 T2 f p1 p2 fuel s result.
    unfold all, fmap_sequence. cbv zeta.
    cbn [all_parsers tuple_init tuple pack fst snd].
    split; [|split; [|split]].
    + intros s1 t1 s2 t2 H1 H2. rewrite H1, H2. reflexivity.
    + intros s1 r1 H g q. rewrite H. reflexivity.
    + intros s1 r1 s2 r2 H1 H2 g. rewrite H1, H2. reflexivity.
    + intros s' r'.
      destruct (p1 fuel s (Some (init T1))) as [[[|] r1] s1| e |];
        try discriminate.
      destruct (p2 fuel s1 (Some (init T2))) as [[[|] r2] s2| e |] eqn:E2;
        intros H; inversion H; subst.
      exists s1, r1, r2. split; [reflexivity | exact E2].
Qed.

Lemma all_of_one_or_two_witness :
  let f : sequence_functor string string_t [string_t] :=
    fun _ ts => Some (snd ts ++ fst ts)%string in
  let a := accept (is_char "a") in
  let b := accept (is_char "b") in
  all (T := string_t) (Ts := [string_t]) f (a, b) 0%nat
      (pstream_of (file "ab")) (Some "") =
    Done true (cursor_after (file "ab") 2) (Some "ba")
  /\ all (T := string_t) (Ts := [string_t]) f (a, b) 0%nat
         (pstream_of (file "ax")) (Some "") =
       Done false (cursor_after (file "ax") 1) (Some "")
  /\ all (T := string_t) (Ts := [string_t]) f (a, b) 0%nat
         (pstream_of (file "xb")) (Some "") =
       Done false (pstream_of (file "xb")) (Some "").
Proof.
  cbv zeta.
  destruct all_of_one_or_two as [_ Htwo].
  pose proof (fun s =>
                Htwo string string_t string_t
                     (fun _ ts => Some (snd ts ++ fst ts)%string)
                     (accept (is_char "a")) (accept (is_char "b"))
                     0%nat s (Some "")) as H.
  split; [|split].
  - destruct (H (pstream_of (file "ab"))) as [Hboth _].
    exact (Hboth _ _ _ _ eq_refl eq_refl).
  - destruct (H (pstream_of (file "ax"))) as [_ [_ [Hsecond _]]].
    exact (Hsecond _ _ _ _ eq_refl eq_refl
                   (fun _ ts => Some (snd ts ++ fst ts)%string)).
  - destruct (H (pstream_of (file "xb"))) as [_ [Hfirst _]].
    exact (Hfirst _ _ eq_refl (fun _ ts => Some (snd ts ++ fst ts)%string)
                  (accept (is_char "b"))).
Defined.

(** ** Further properties: parse errors *)

(** X20.  No combinator catches a parse error.  One thrown by the parser
    that runs first leaves [||], [&&], [many], [discard], [option] and
    [some] as the same throw, and so does one thrown by the second parser
    of [||] after the first returned false and of [&&] after the first
    returned true.  On the packs the header instantiates, one thrown by
    the parser of a pack of one, by the first parser of a pack of two, or
    by the second where [all] or [any] gets to run it, leaves [all] and
    [any] as the same throw and the reducer is not applied.  In
    particular [option(expect(pred))] throws on a mismatch instead of
    succeeding. *)
Theorem parse_error_passes_through {R : Type} (p q : parser R)
    (fuel : nat) (s : pstream) (result : option R) (e : parse_error) :
  (p fuel s result = Thrown e ->
     choice p q fuel s result = Thrown e
     /\ sequence p q fuel s result = Thrown e
     /\ many p (S fuel) s result = Thrown e
     /\ Convenience.option p fuel s result = Thrown e
     /\ some p fuel s result = Thrown e)
  /\ (forall (T : Type) (d : parser T) (t : option R),
        d fuel s None = Thrown e -> @discard T R d fuel s t = Thrown e)
  /\ (forall s1 r1, p fuel s result = Done false s1 r1 ->
        q fuel s1 r1 = Thrown e -> choice p q fuel s result = Thrown e)
  /\ (forall s1 r1, p fuel s result = Done true s1 r1 ->
        q fuel s1 r1 = Thrown e -> sequence p q fuel s result = Thrown e)
  /\ (forall (T : rtype) (p0 : parser T)
             (f : sequence_functor R T []) (g : choice_functor R T []),
        p0 fuel s (Some (init T)) = Thrown e ->
        all (T := T) (Ts := []) f p0 fuel s result = Thrown e
        /\ any (T := T) (Ts := []) g p0 fuel s result = Thrown e)
  /\ (forall (T1 T2 : rtype) (p1 : parser T1) (p2 : parser T2)
             (f : sequence_functor R T1 [T2]) (g : choice_functor R T1 [T2]),
        (p1 fuel s (Some (init T1)) = Thrown e ->
         all (T := T1) (Ts := [T2]) f (p1, p2) fuel s result = Thrown e
         /\ any (T := T1) (Ts := [T2]) g (p1, p2) fuel s result = Thrown e)
        /\ (forall s1 r1,
              p1 fuel s (Some (init T1)) = Done true s1 r1 ->
              p2 fuel s1 (Some (init T2)) = Thrown e ->
              all (T := T1) (Ts := [T2]) f (p1, p2) fuel s result = Thrown e)
        /\ (forall s1 r1,
              p1 fuel s (Some (init T1)) = Done false s1 r1 ->
              p2 fuel s1 (Some (init T2)) = Thrown e ->
              any (T := T1) (Ts := [T2]) g (p1, p2) fuel s result = Thrown e))
  /\ (forall pred (t : option string),
        test pred (get_sym s) = false ->
        Convenience.option (expect pred) fuel s t =
        Thrown (error s "expected" (name pred))).
Proof.
  split; [|split; [|split; [|split; [|split; [|split]]]]].
  - intros H. unfold Convenience.option, some, choice, sequence.
    rewrite many_unfold, H. repeat split.
  - intros T d t H. unfold discard. rewrite H. reflexivity.
  - intros s1 r1 Hp Hq. unfold choice. rewrite Hp. exact Hq.
  - intros s1 r1 Hp Hq. unfold sequence. rewrite Hp. exact Hq.
  - intros T p0 f g H.
    unfold all, fmap_sequence, any, fmap_choice. cbv zeta.
    cbn [all_parsers any_parsers tuple_init tuple pack].
    rewrite H. split; reflexivity.
  - intros T1 T2 p1 p2 f g.
    unfold all, fmap_sequence, any, fmap_choice. cbv zeta.
    cbn [all_parsers any_parsers tuple_init tuple pack fst snd].
    split; [|split].
    + intros H. rewrite H. split; reflexivity.
    + intros s1 r1 H1 H2. rewrite H1, H2. reflexivity.
    + intros s1 r1 H1 H2. rewrite H1, H2. reflexivity.
  - intros pred t H. unfold Convenience.option, choice, expect.
    rewrite H. reflexivity.
Qed.

Lemma parse_error_passes_through_witness :
  let s := pstream_of (file "ax") in
  let e := mk_parse_error "expected" 1 2 "digit" 120 in
  let f : sequence_functor string string_t [string_t] :=
    fun _ ts => Some (fst ts ++ snd ts)%string in
  let g : choice_functor string string_t [string_t] :=
    fun _ _ ts => Some (fst ts ++ snd ts)%string in
  all (T := string_t) (Ts := [string_t]) f
      (accept (is_char "a"), expect is_digit) 0%nat s (Some "") = Thrown e
  /\ any (T := string_t) (Ts := [string_t]) g
         (accept (is_char "b"), sequence (accept (is_char "a"))
                                         (expect is_digit))
         0%nat s (Some "") = Thrown e
  /\ Convenience.option (sequence (accept (is_char "a")) (expect is_digit))
                        0%nat s (Some "") = Thrown e
  /\ many (sequence (accept (is_char "a")) (expect is_digit))
          1%nat s (Some "") = Thrown e.
Proof.
  cbv zeta.
  pose proof (parse_error_passes_through
                (sequence (accept (is_char "a")) (expect is_digit)) succ
                0%nat (pstream_of (file "ax")) (Some "")
                (mk_parse_error "expected" 1 2 "digit" 120))
    as [Hfirst [_ [_ [_ [_ [Htwo _]]]]]].
  destruct (Hfirst eq_refl) as [_ [_ [Hmany [Hopt _]]]].
  split; [|split; [|split]].
  - destruct (Htwo string_t string_t (accept (is_char "a")) (expect is_digit)
                   (fun _ ts => Some (fst ts ++ snd ts)%string)
                   (fun _ _ ts => Some (fst ts ++ snd ts)%string))
      as [_ [Hall _]].
    exact (Hall _ _ eq_refl eq_refl).
  - destruct (Htwo string_t string_t (accept (is_char "b"))
                   (sequence (accept (is_char "a")) (expect is_digit))
                   (fun _ ts => Some (fst ts ++ snd ts)%string)
                   (fun _ _ ts => Some (fst ts ++ snd ts)%string))
      as [_ [_ Hany]].
    exact (Hany _ _ eq_refl eq_refl).
  - exact Hopt.
  - exact Hmany.
Defined.

(** ** Further properties: the parser state of the Prolog grammar *)

Section Prolog_facts.

Import Prolog.

Lemma find_variable_In (n : string) (vs : list (string * var_ptr))
    (v : var_ptr) :
  find_variable n vs = Some v -> In (n, v) vs.
Proof.
  induction vs as [|[k u] r IH]; simpl; [discriminate|].
  destruct (string_dec k n) as [->|Hk]; intros H.
  - inversion H; subst. left. reflexivity.
  - right. apply IH. exact H.
Qed.

Lemma In_find_variable (n : string) (vs : list (string * var_ptr))
    (v : var_ptr) :
  NoDup (map fst vs) -> In (n, v) vs -> find_variable n vs = Some v.
Proof.
  induction vs as [|[k u] r IH]; simpl; intros Hnd Hin; [contradiction|].
  inversion Hnd as [|k0 l0 Hk Hr]; subst.
  destruct Hin as [Heq|Hin].
  - inversion Heq; subst. destruct (string_dec n n); [reflexivity|congruence].
  - destruct (string_dec k n) as [->|Hne].
    + exfalso. apply Hk. apply (in_map fst) in Hin. exact Hin.
    + apply IH; assumption.
Qed.

Lemma find_variable_None (n : string) (vs : list (string * var_ptr)) :
  find_variable n vs = None -> ~ In n (map fst vs).
Proof.
  induction vs as [|[k u] r IH]; simpl; intros H; [tauto|].
  destruct (string_dec k n) as [->|Hk]; [discriminate|].
  intros [Heq|Hin]; [congruence | exact (IH H Hin)].
Qed.

Lemma find_variable_app (n : string) (vs : list (string * var_ptr))
    (k : string) (u : var_ptr) :
  find_variable n (vs ++ [(k, u)]) =
  match find_variable n vs with
  | Some v => Some v
  | None => if string_dec k n then Some u else None
  end.
Proof.
  induction vs as [|[k0 u0] r IH]; simpl; [reflexivity|].
  destruct (string_dec k0 n); [reflexivity | exact IH].
Qed.

Lemma same_variable_same_name (vs : list (string * var_ptr))
    (a b : string) (v : var_ptr) :
  NoDup (map snd vs) -> In (a, v) vs -> In (b, v) vs -> a = b.
Proof.
  induction vs as [|[k u] r IH]; simpl; intros Hnd Ha Hb; [contradiction|].
  inversion Hnd as [|u0 l0 Hu Hr]; subst.
  destruct Ha as [Ha|Ha]; destruct Hb as [Hb|Hb].
  - congruence.
  - inversion Ha; subst. exfalso. apply Hu.
    apply (in_map snd) in Hb. exact Hb.
  - inversion Hb; subst. exfalso. apply Hu.
    apply (in_map snd) in Ha. exact Ha.
  - exact (IH Hr Ha Hb).
Qed.

Lemma get_name_fields (name : string) (s : parser_state) :
  fst (get_name name s) = name
  /\ variables (snd (get_name name s)) = variables s
  /\ repeated (snd (get_name name s)) = repeated s
  /\ repeated_in_goal (snd (get_name name s)) = repeated_in_goal s
  /\ In name (names (snd (get_name name s)))
  /\ (forall m, In m (names s) -> In m (names (snd (get_name name s))))
  /\ (NoDup (names s) -> NoDup (names (snd (get_name name s)))).
Proof.
  unfold get_name.
  destruct (set_mem string_dec name (names s)) eqn:E; cbn [fst snd names
    variables repeated repeated_in_goal].
  - apply (set_mem_correct1 string_dec) in E. repeat split; auto.
  - repeat split; auto.
    + apply set_add_intro2. reflexivity.
    + intros m Hm. apply set_add_intro1. exact Hm.
    + intros Hnd. apply set_add_nodup. exact Hnd.
Qed.

Lemma return_variable_new (n : string) (w : world) :
  find_variable n (variables (st w)) = None ->
  return_variable n w =
  (List.length (heap w),
   mk_world (mk_parser_state (names (snd (get_name n (st w))))
                             (variables (st w) ++ [(n, List.length (heap w))])
                             (repeated (st w)) (repeated_in_goal (st w)))
            (heap w ++ [n])).
Proof.
  intros H. unfold return_variable.
  destruct (get_name_fields n (st w)) as [H1 [H2 [H3 [H4 _]]]].
  destruct (get_name n (st w)) as [n' s1]. cbn [fst snd] in *. subst n'.
  rewrite H2, H, H3, H4. reflexivity.
Qed.

Lemma return_variable_old (n : string) (w : world) (v : var_ptr) :
  find_variable n (variables (st w)) = Some v ->
  return_variable n w =
  (v,
   mk_world (mk_parser_state (names (snd (get_name n (st w))))
                             (variables (st w))
                             (set_add Nat.eq_dec v (repeated (st w)))
                             (repeated_in_goal (st w)))
            (heap w)).
Proof.
  intros H. unfold return_variable.
  destruct (get_name_fields n (st w)) as [H1 [H2 [H3 [H4 _]]]].
  destruct (get_name n (st w)) as [n' s1]. cbn [fst snd] in *. subst n'.
  rewrite H2, H, H3, H4. reflexivity.
Qed.

Lemma return_variable_wf (n : string) (w : world) :
  well_formed w -> well_formed (snd (return_variable n w)).
Proof.
  intros [Hn [Hk [Hv [Hb Hr]]]].
  destruct (get_name_fields n (st w)) as [_ [_ [_ [_ [G5 [G6 G7]]]]]].
  destruct (find_variable n (variables (st w))) as [v|] eqn:E.
  - rewrite (return_variable_old n w v E).
    unfold well_formed; cbn [snd st heap names variables repeated].
    split; [exact (G7 Hn)|]. split; [exact Hk|]. split; [exact Hv|].
    split.
    + intros m u Hin. destruct (Hb m u Hin) as [B1 B2].
      split; [exact (G6 m B1) | exact B2].
    + intros x Hx. apply set_add_elim in Hx. destruct Hx as [->|Hx].
      * apply find_variable_In in E. apply (in_map snd) in E. exact E.
      * exact (Hr x Hx).
  - rewrite (return_variable_new n w E).
    unfold well_formed; cbn [snd st heap names variables repeated].
    split; [exact (G7 Hn)|].
    split; [|split; [|split]].
    + rewrite map_app. cbn [map fst].
      apply NoDup_app; [exact Hk | repeat constructor; intros [] |].
      intros a Ha [<-|[]]. exact (find_variable_None _ _ E Ha).
    + rewrite map_app. cbn [map snd].
      apply NoDup_app; [exact Hv | repeat constructor; intros [] |].
      intros a Ha [<-|[]].
      apply in_map_iff in Ha. destruct Ha as [[m u] [Hu Hin]].
      cbn [snd] in Hu. subst u.
      destruct (Hb m _ Hin) as [_ B2].
      assert (nth_error (heap w) (List.length (heap w)) <> None)
        by (rewrite B2; discriminate).
      apply nth_error_Some in H. lia.
    + intros m u Hin. apply in_app_or in Hin. destruct Hin as [Hin|[Heq|[]]].
      * destruct (Hb m u Hin) as [B1 B2].
        split; [exact (G6 m B1)|].
        rewrite nth_error_app1; [exact B2|].
        apply nth_error_Some. rewrite B2. discriminate.
      * inversion Heq; subst. split; [exact G5|].
        rewrite nth_error_app2, Nat.sub_diag by lia. reflexivity.
    + intros x Hx. rewrite map_app. apply in_or_app. left. exact (Hr x Hx).
Qed.

Lemma return_variables_cons (n : string) (r : list string) (w : world) :
  return_variables (n :: r) w =
  (fst (return_variable n w)
     :: fst (return_variables r (snd (return_variable n w))),
   snd (return_variables r (snd (return_variable n w)))).
Proof.
  cbn [return_variables].
  destruct (return_variable n w) as [v w1]. cbn [fst snd].
  destruct (return_variables r w1) as [vs w2]. reflexivity.
Qed.

(** What a run of [return_variable] over the names [ns] leaves. *)
Lemma return_variables_spec (ns : list string) :
  forall w, well_formed w ->
    let vs := fst (return_variables ns w) in
    let w' := snd (return_variables ns w) in
    well_formed w'
    /\ Forall2 (fun n v => find_variable n (variables (st w')) = Some v) ns vs
    /\ (forall m u, find_variable m (variables (st w)) = Some u ->
                    find_variable m (variables (st w')) = Some u)
    /\ (forall x, In x (repeated (st w')) <->
          In x (repeated (st w))
          \/ exists m, find_variable m (variables (st w')) = Some x
                       /\ ((2 <= count_occ string_dec ns m)%nat
                           \/ ((1 <= count_occ string_dec ns m)%nat
                               /\ find_variable m (variables (st w)) <> None)))
    /\ repeated_in_goal (st w') = repeated_in_goal (st w)
    /\ (forall m, In m (names (st w)) -> In m (names (st w'))).
Proof.
  induction ns as [|n r IH]; intros w Hwf; cbv zeta.
  - cbn [return_variables fst snd].
    split; [exact Hwf|]. split; [constructor|]. split; [auto|].
    split; [|split; [reflexivity | auto]].
    intros x. split; [auto|].
    intros [Hx | [m [_ [Hc | [Hc _]]]]]; [exact Hx | |];
      cbn [count_occ] in Hc; lia.
  - rewrite return_variables_cons. cbn [fst snd].
    pose proof (return_variable_wf n w Hwf) as Hwf1.
    destruct (IH _ Hwf1) as [Hwf' [Hall [Hmono [Hrep [Hgoal Hnames]]]]].
    cbv zeta in *.
    set (w1 := snd (return_variable n w)) in *.
    set (w' := snd (return_variables r w1)) in *.
    destruct Hwf as [Hn [Hk [Hv [Hb Hr]]]].
    destruct (get_name_fields n (st w)) as [_ [_ [_ [_ [_ [G6 _]]]]]].
    destruct (find_variable n (variables (st w))) as [v|] eqn:E.
    + (* the name is bound already *)
      pose proof (return_variable_old n w v E) as Hold.
      assert (Hfst : fst (return_variable n w) = v) by (rewrite Hold; reflexivity).
      assert (Hvars : variables (st w1) = variables (st w))
        by (unfold w1; rewrite Hold; reflexivity).
      assert (Hreps : repeated (st w1) =
                      set_add Nat.eq_dec v (repeated (st w)))
        by (unfold w1; rewrite Hold; reflexivity).
      assert (Hg1 : repeated_in_goal (st w1) = repeated_in_goal (st w))
        by (unfold w1; rewrite Hold; reflexivity).
      assert (Hn1 : forall m, In m (names (st w)) -> In m (names (st w1)))
        by (unfold w1; rewrite Hold; exact G6).
      rewrite Hvars in Hmono, Hrep. rewrite Hfst.
      split; [exact Hwf'|].
      split; [constructor; [exact (Hmono n v E) | exact Hall]|].
      split; [exact Hmono|].
      split; [|split; [congruence | auto]].
      intros x. rewrite Hrep, Hreps. cbn [count_occ]. split.
      * intros [Hx | [m [Hf Hc]]].
        -- apply set_add_elim in Hx. destruct Hx as [->|Hx]; [|left; exact Hx].
           right. exists n. split; [exact (Hmono n v E)|].
           right. split; [|congruence].
           destruct (string_dec n n); [lia | congruence].
        -- right. exists m. split; [exact Hf|].
           destruct (string_dec n m); destruct Hc as [Hc | [Hc Hne]];
             [left | right; split | left | right; split]; try lia; assumption.
      * intros [Hx | [m [Hf Hc]]].
        -- left. apply set_add_intro1. exact Hx.
        -- destruct (string_dec n m) as [<-|Hne].
           ++ left. rewrite (Hmono n v E) in Hf. inversion Hf; subst.
              apply set_add_intro2. reflexivity.
           ++ right. exists m. split; [exact Hf | exact Hc].
    + (* the name is new *)
      pose proof (return_variable_new n w E) as Hnew.
      assert (Hfst : fst (return_variable n w) = List.length (heap w))
        by (rewrite Hnew; reflexivity).
      assert (Hvars : variables (st w1) =
                      variables (st w) ++ [(n, List.length (heap w))])
        by (unfold w1; rewrite Hnew; reflexivity).
      assert (Hreps : repeated (st w1) = repeated (st w))
        by (unfold w1; rewrite Hnew; reflexivity).
      assert (Hg1 : repeated_in_goal (st w1) = repeated_in_goal (st w))
        by (unfold w1; rewrite Hnew; reflexivity).
      assert (Hn1 : forall m, In m (names (st w)) -> In m (names (st w1)))
        by (unfold w1; rewrite Hnew; exact G6).
      assert (Hbound : find_variable n (variables (st w1)) =
                       Some (List.length (heap w))).
      { rewrite Hvars, find_variable_app, E.
        destruct (string_dec n n); [reflexivity | congruence]. }
      assert (Hkeep : forall m u, find_variable m (variables (st w)) = Some u ->
                        find_variable m (variables (st w1)) = Some u).
      { intros m u Hf. rewrite Hvars, find_variable_app, Hf. reflexivity. }
      assert (Hother : forall m, n <> m ->
                find_variable m (variables (st w1)) =
                find_variable m (variables (st w))).
      { intros m Hne. rewrite Hvars, find_variable_app.
        destruct (find_variable m (variables (st w))); [reflexivity|].
        destruct (string_dec n m); [congruence | reflexivity]. }
      rewrite Hfst.
      split; [exact Hwf'|].
      split; [constructor; [exact (Hmono n _ Hbound) | exact Hall]|].
      split; [intros m u Hf; exact (Hmono m u (Hkeep m u Hf))|].
      split; [|split; [congruence | auto]].
      intros x. rewrite Hrep, Hreps. cbn [count_occ]. split.
      * intros [Hx | [m [Hf Hc]]]; [left; exact Hx|].
        right. exists m. split; [exact Hf|].
        destruct (string_dec n m) as [<-|Hne].
        -- left. destruct Hc as [Hc | [Hc _]]; lia.
        -- rewrite (Hother m Hne) in Hc. exact Hc.
      * intros [Hx | [m [Hf Hc]]]; [left; exact Hx|].
        right. exists m. split; [exact Hf|].
        destruct (string_dec n m) as [<-|Hne].
        -- right. split; [|rewrite Hbound; discriminate].
           destruct Hc as [Hc | [_ Hc]]; [lia | congruence].
        -- rewrite (Hother m Hne). exact Hc.
Qed.

Lemma Forall2_nth_error {A B : Type} (P : A -> B -> Prop) (l1 : list A)
    (l2 : list B) :
  Forall2 P l1 l2 ->
  forall i a b, nth_error l1 i = Some a -> nth_error l2 i = Some b -> P a b.
Proof.
  induction 1 as [|x y l1 l2 Hxy _ IH]; intros [|i] a b Ha Hb;
    simpl in *; try discriminate.
  - inversion Ha; inversion Hb; subst. exact Hxy.
  - exact (IH i a b Ha Hb).
Qed.

Lemma Forall2_same_length {A B : Type} (P : A -> B -> Prop) (l1 : list A)
    (l2 : list B) :
  Forall2 P l1 l2 -> List.length l2 = List.length l1.
Proof.
  induction 1; simpl; [reflexivity | f_equal; assumption].
Qed.

Lemma return_head_wf (w : world) : well_formed w -> well_formed (return_head w).
Proof.
  intros H. exact H.
Qed.

Lemma bound_below_heap (w : world) (m : string) (u : var_ptr) :
  well_formed w -> In (m, u) (variables (st w)) ->
  (u < List.length (heap w))%nat.
Proof.
  intros [_ [_ [_ [Hb _]]]] Hin.
  destruct (Hb m u Hin) as [_ H].
  apply nth_error_Some. rewrite H. discriminate.
Qed.

End Prolog_facts.

(** X21.  [get_name] interns: it answers the name it was asked for, which
    is in the table afterwards; the table never loses a name and gains at
    most the one asked for; it never holds a name twice; asking again for
    a name changes nothing; and the rest of the state is not touched. *)
Theorem get_name_interns (name : string) (s : Prolog.parser_state) :
  NoDup (Prolog.names s) ->
  let s' := snd (Prolog.get_name name s) in
  fst (Prolog.get_name name s) = name
  /\ In name (Prolog.names s')
  /\ NoDup (Prolog.names s')
  /\ (forall m, In m (Prolog.names s') <-> m = name \/ In m (Prolog.names s))
  /\ Prolog.get_name name s' = (name, s')
  /\ Prolog.variables s' = Prolog.variables s
  /\ Prolog.repeated s' = Prolog.repeated s
  /\ Prolog.repeated_in_goal s' = Prolog.repeated_in_goal s.
Proof.
  intros Hnd. cbv zeta.
  destruct (get_name_fields name s) as [H1 [H2 [H3 [H4 [H5 [H6 H7]]]]]].
  split; [exact H1|]. split; [exact H5|]. split; [exact (H7 Hnd)|].
  split; [|split; [|repeat split; assumption]].
  - intros m. split.
    + unfold Prolog.get_name.
      destruct (set_mem string_dec name (Prolog.names s));
        cbn [snd Prolog.names]; intros Hm; [right; exact Hm|].
      apply set_add_elim in Hm. exact Hm.
    + intros [->|Hm]; [exact H5 | exact (H6 m Hm)].
  - unfold Prolog.get_name at 1.
    rewrite (set_mem_correct2 string_dec _ _ H5). reflexivity.
Qed.

Lemma get_name_interns_witness :
  let s := Prolog.mk_parser_state ["foo"; "X"] [] [] [] in
  NoDup (Prolog.names s)
  /\ Prolog.names (snd (Prolog.get_name "Y" s)) = ["foo"; "X"; "Y"]
  /\ Prolog.get_name "Y" (snd (Prolog.get_name "Y" s)) =
       ("Y", snd (Prolog.get_name "Y" s)).
Proof.
  cbv zeta.
  assert (Hnd : NoDup ["foo"; "X"]).
  { constructor; [intros [H|[]]; discriminate|].
    constructor; [intros []|constructor]. }
  split; [exact Hnd|]. split; [reflexivity|].
  exact (proj1 (proj2 (proj2 (proj2 (proj2
           (get_name_interns "Y" (Prolog.mk_parser_state ["foo"; "X"] [] [] [])
                             Hnd)))))).
Defined.

(** X22.  Within a clause a variable name stands for one object.  When
    [return_variable] runs over the names [ns] from a state whose
    [variables] and [repeated] are empty, two occurrences get the same
    pointer exactly when they are occurrences of the same name; the
    object behind a pointer was made with the name of the occurrence; and
    the variable of an occurrence is in [repeated] at the end exactly
    when its name occurs at least twice. *)
Theorem variables_of_a_clause (ns : list string) (w : Prolog.world) :
  Prolog.well_formed w ->
  Prolog.variables (Prolog.st w) = [] ->
  Prolog.repeated (Prolog.st w) = [] ->
  let vs := fst (Prolog.return_variables ns w) in
  let w' := snd (Prolog.return_variables ns w) in
  Prolog.well_formed w'
  /\ List.length vs = List.length ns
  /\ (forall i j ni nj vi vj,
        nth_error ns i = Some ni -> nth_error ns j = Some nj ->
        nth_error vs i = Some vi -> nth_error vs j = Some vj ->
        (ni = nj <-> vi = vj))
  /\ (forall i ni vi,
        nth_error ns i = Some ni -> nth_error vs i = Some vi ->
        nth_error (Prolog.heap w') vi = Some ni
        /\ (In vi (Prolog.repeated (Prolog.st w'))
            <-> (2 <= count_occ string_dec ns ni)%nat)).
Proof.
  intros Hwf Hvars Hreps. cbv zeta.
  destruct (return_variables_spec ns w Hwf)
    as [Hwf' [Hall [_ [Hrep _]]]]. cbv zeta in *.
  set (vs := fst (Prolog.return_variables ns w)) in *.
  set (w' := snd (Prolog.return_variables ns w)) in *.
  pose proof Hwf' as [_ [Hk [Hv [Hb _]]]].
  split; [exact Hwf'|].
  split; [exact (Forall2_same_length _ _ _ Hall)|].
  split.
  - intros i j ni nj vi vj Hni Hnj Hvi Hvj.
    pose proof (Forall2_nth_error _ _ _ Hall i ni vi Hni Hvi) as Fi.
    pose proof (Forall2_nth_error _ _ _ Hall j nj vj Hnj Hvj) as Fj.
    cbv beta in Fi, Fj. split.
    + intros <-. congruence.
    + intros <-. apply find_variable_In in Fi, Fj.
      exact (same_variable_same_name _ _ _ _ Hv Fi Fj).
  - intros i ni vi Hni Hvi.
    pose proof (Forall2_nth_error _ _ _ Hall i ni vi Hni Hvi) as Fi.
    cbv beta in Fi. split.
    + exact (proj2 (Hb ni vi (find_variable_In _ _ _ Fi))).
    + rewrite Hrep, Hvars, Hreps. split.
      * intros [[] | [m [Hf [Hc | [_ Hne]]]]]; [|exfalso; apply Hne; reflexivity].
        apply find_variable_In in Fi, Hf.
        rewrite (same_variable_same_name _ _ _ _ Hv Fi Hf). exact Hc.
      * intros Hc. right. exists ni. split; [exact Fi | left; exact Hc].
Qed.

Lemma variables_of_a_clause_witness :
  let w := Prolog.mk_world Prolog.parser_state_init [] in
  Prolog.well_formed w
  /\ fst (Prolog.return_variables ["X"; "Y"; "X"] w) = [0; 1; 0]%nat
  /\ Prolog.repeated (Prolog.st (snd (Prolog.return_variables
                                       ["X"; "Y"; "X"] w))) = [0%nat]
  /\ List.length (fst (Prolog.return_variables ["X"; "Y"; "X"] w)) = 3%nat.
Proof.
  cbv zeta.
  assert (Hwf : Prolog.well_formed
                  (Prolog.mk_world Prolog.parser_state_init [])).
  { split; [constructor|]. split; [constructor|]. split; [constructor|].
    split; [intros n v []| intros v []]. }
  split; [exact Hwf|]. split; [reflexivity|]. split; [reflexivity|].
  exact (proj1 (proj2 (variables_of_a_clause ["X"; "Y"; "X"]
                         (Prolog.mk_world Prolog.parser_state_init [])
                         Hwf eq_refl eq_refl))).
Defined.

(** X23.  A clause starts afresh.  When the functors run in the order of
    the grammar of a clause ([return_variable] over the names of the
    head, [return_head], [return_variable] over the names of the body,
    [return_clause]) from a state whose [variables] and [repeated] are
    empty, the set the clause is given holds exactly the variables whose
    name occurs at least twice in the head, whatever the body repeats;
    afterwards [variables], [repeated] and [repeated_in_goal] are empty
    while the name table and the objects made are kept, so that the next
    [return_variable], for whatever name, makes an object that no earlier
    pointer denotes. *)
Theorem clause_starts_afresh (head body : list string) (w : Prolog.world) :
  Prolog.well_formed w ->
  Prolog.variables (Prolog.st w) = [] ->
  Prolog.repeated (Prolog.st w) = [] ->
  let w1 := snd (Prolog.return_variables head w) in
  let w2 := Prolog.return_head w1 in
  let w3 := snd (Prolog.return_variables body w2) in
  let reps := fst (Prolog.return_clause w3) in
  let w4 := snd (Prolog.return_clause w3) in
  (forall v, In v reps <->
     exists n, Prolog.find_variable n (Prolog.variables (Prolog.st w1)) = Some v
               /\ (2 <= count_occ string_dec head n)%nat)
  /\ Prolog.variables (Prolog.st w4) = []
  /\ Prolog.repeated (Prolog.st w4) = []
  /\ Prolog.repeated_in_goal (Prolog.st w4) = []
  /\ Prolog.heap w4 = Prolog.heap w3
  /\ (forall m, In m (Prolog.names (Prolog.st w)) ->
                In m (Prolog.names (Prolog.st w4)))
  /\ (forall n,
        fst (Prolog.return_variable n w4) = List.length (Prolog.heap w3)
        /\ forall m u, In (m, u) (Prolog.variables (Prolog.st w3)) ->
                       u <> fst (Prolog.return_variable n w4)).
Proof.
  intros Hwf Hvars Hreps. cbv zeta.
  destruct (return_variables_spec head w Hwf)
    as [Hwf1 [_ [_ [Hrep1 [_ Hnames1]]]]]. cbv zeta in *.
  set (w1 := snd (Prolog.return_variables head w)) in *.
  pose proof (return_head_wf w1 Hwf1) as Hwf2.
  destruct (return_variables_spec body (Prolog.return_head w1) Hwf2)
    as [Hwf3 [_ [_ [_ [Hgoal3 Hnames3]]]]]. cbv zeta in *.
  set (w3 := snd (Prolog.return_variables body (Prolog.return_head w1))) in *.
  unfold Prolog.return_clause.
  cbn [fst snd Prolog.st Prolog.heap Prolog.variables Prolog.repeated
       Prolog.repeated_in_goal Prolog.names].
  split.
  - intros v. rewrite Hgoal3.
    unfold Prolog.return_head at 1.
    cbn [Prolog.st Prolog.repeated_in_goal].
    rewrite Hrep1, Hvars, Hreps. split.
    + intros [[] | [m [Hf [Hc | [_ Hne]]]]]; [|exfalso; apply Hne; reflexivity].
      exists m. split; assumption.
    + intros [m [Hf Hc]]. right. exists m. split; [exact Hf | left; exact Hc].
  - repeat (split; [reflexivity|]).
    split.
    + intros m Hm. apply Hnames3. apply Hnames1. exact Hm.
    + intros n.
      rewrite return_variable_new by reflexivity.
      cbn [fst Prolog.heap]. split; [reflexivity|].
      intros m u Hin Heq.
      pose proof (bound_below_heap w3 m u Hwf3 Hin). lia.
Qed.

Lemma clause_starts_afresh_witness :
  let w := Prolog.mk_world Prolog.parser_state_init [] in
  let w3 := snd (Prolog.return_variables ["Y"; "Y"]
                   (Prolog.return_head
                      (snd (Prolog.return_variables ["X"; "Y"; "X"] w)))) in
  Prolog.well_formed w
  /\ fst (Prolog.return_clause w3) = [0%nat]
  /\ fst (Prolog.return_variable "X" (snd (Prolog.return_clause w3))) = 2%nat
  /\ Prolog.variables (Prolog.st (snd (Prolog.return_clause w3))) = [].
Proof.
  cbv zeta.
  assert (Hwf : Prolog.well_formed
                  (Prolog.mk_world Prolog.parser_state_init [])).
  { split; [constructor|]. split; [constructor|]. split; [constructor|].
    split; [intros n v []| intros v []]. }
  split; [exact Hwf|]. split; [reflexivity|]. split; [reflexivity|].
  exact (proj1 (proj2 (clause_starts_afresh ["X"; "Y"; "X"] ["Y"; "Y"]
                         (Prolog.mk_world Prolog.parser_state_init [])
                         Hwf eq_refl eq_refl))).
Defined.
